(** * Serial: frame synchronisation, inbox handoff and statistics

    A shallow embedding of [Serial.py] (class [Serial]) and the properties
    its specification states about it.

    The Python object is a record of its attributes; every method is a
    function from the state before to the state after, together with the
    calls it makes to its collaborators (the HDLC codec, the condition
    variable of the inbox and the serial port), in the order they are made.
    Bare [except:] clauses are modelled by the [option] result of the codec
    and by the outcome of the port write, which is chosen by the environment.

    Python integers are unbounded: the six counters are in [Z].  A byte read
    from the port is a [byte]; the attributes [rx_byte] and [last_rx_byte]
    hold either a byte or the empty string [''], hence [option byte]. *)

From Stdlib Require Import ZArith List Bool Lia.
From Stdlib Require Import Strings.Byte.
Import ListNotations.

Open Scope Z_scope.

(** ** The codec interface

    [Serial.py] imports the class [Hdlc] and uses three members of it: the
    constant [HDLC_FLAG] and the methods [hdlcify] and [dehdlcify], each of
    which may raise.  The development is parametric in them. *)

Class Hdlc : Type := {
  HDLC_FLAG : byte;
  hdlcify : list byte -> option (list byte);
  dehdlcify : list byte -> option (list byte)
}.

(** A codec to run the model on: the payload is followed by one checksum
    byte (the sum of the payload modulo 256) and enclosed in two flags
    [0x7e].  It has no escaping: a payload or checksum holding the flag is
    refused.  It is one instance of the interface, used where a statement
    is evaluated on concrete bytes; no general statement depends on it. *)
Module Checksum.

Definition flag : byte := x7e.

Definition checksum (payload : list byte) : byte :=
  let total := fold_right (fun b acc => N.add (Byte.to_N b) acc) 0%N payload in
  match Byte.of_N (N.modulo total 256) with
  | Some c => c
  | None => x00
  end.

Definition has_flag (bs : list byte) : bool :=
  existsb (fun b => Byte.eqb b flag) bs.

Definition encode (payload : list byte) : option (list byte) :=
  let body := payload ++ [checksum payload] in
  if has_flag body then None else Some (flag :: body ++ [flag]).

Definition decode (raw : list byte) : option (list byte) :=
  match raw with
  | first :: rest =>
      match rev rest with
      | final :: c :: rpayload =>
          let payload := rev rpayload in
          if Byte.eqb first flag && Byte.eqb final flag
             && Byte.eqb c (checksum payload)
          then Some payload
          else None
      | _ => None
      end
  | [] => None
  end.

Definition codec : Hdlc :=
  {| HDLC_FLAG := flag; hdlcify := encode; dehdlcify := decode |}.

End Checksum.

(** ** The state of a [Serial] object *)

Record Serial : Type := mkSerial {
  stop_event : bool;
  receive_buffer : list byte;
  receive_message : list byte;
  is_receiving : bool;
  rx_byte : option byte;
  last_rx_byte : option byte;
  transmit_buffer : list byte;
  transmit_message : list byte;
  tx_total_frames : Z;
  tx_good_frames : Z;
  tx_bad_frames : Z;
  rx_total_frames : Z;
  rx_good_frames : Z;
  rx_bad_frames : Z
}.

(** Attribute assignment, one function per attribute that is assigned
    outside of [__init__]. *)

Definition set_stop_event (v : bool) (s : Serial) : Serial :=
  mkSerial v (receive_buffer s) (receive_message s) (is_receiving s)
    (rx_byte s) (last_rx_byte s) (transmit_buffer s) (transmit_message s)
    (tx_total_frames s) (tx_good_frames s) (tx_bad_frames s)
    (rx_total_frames s) (rx_good_frames s) (rx_bad_frames s).

Definition set_receive_buffer (v : list byte) (s : Serial) : Serial :=
  mkSerial (stop_event s) v (receive_message s) (is_receiving s)
    (rx_byte s) (last_rx_byte s) (transmit_buffer s) (transmit_message s)
    (tx_total_frames s) (tx_good_frames s) (tx_bad_frames s)
    (rx_total_frames s) (rx_good_frames s) (rx_bad_frames s).

Definition set_receive_message (v : list byte) (s : Serial) : Serial :=
  mkSerial (stop_event s) (receive_buffer s) v (is_receiving s)
    (rx_byte s) (last_rx_byte s) (transmit_buffer s) (transmit_message s)
    (tx_total_frames s) (tx_good_frames s) (tx_bad_frames s)
    (rx_total_frames s) (rx_good_frames s) (rx_bad_frames s).

Definition set_is_receiving (v : bool) (s : Serial) : Serial :=
  mkSerial (stop_event s) (receive_buffer s) (receive_message s) v
    (rx_byte s) (last_rx_byte s) (transmit_buffer s) (transmit_message s)
    (tx_total_frames s) (tx_good_frames s) (tx_bad_frames s)
    (rx_total_frames s) (rx_good_frames s) (rx_bad_frames s).

Definition set_rx_byte (v : option byte) (s : Serial) : Serial :=
  mkSerial (stop_event s) (receive_buffer s) (receive_message s)
    (is_receiving s) v (last_rx_byte s) (transmit_buffer s)
    (transmit_message s)
    (tx_total_frames s) (tx_good_frames s) (tx_bad_frames s)
    (rx_total_frames s) (rx_good_frames s) (rx_bad_frames s).

Definition set_last_rx_byte (v : option byte) (s : Serial) : Serial :=
  mkSerial (stop_event s) (receive_buffer s) (receive_message s)
    (is_receiving s) (rx_byte s) v (transmit_buffer s) (transmit_message s)
    (tx_total_frames s) (tx_good_frames s) (tx_bad_frames s)
    (rx_total_frames s) (rx_good_frames s) (rx_bad_frames s).

Definition set_transmit_buffer (v : list byte) (s : Serial) : Serial :=
  mkSerial (stop_event s) (receive_buffer s) (receive_message s)
    (is_receiving s) (rx_byte s) (last_rx_byte s) v (transmit_message s)
    (tx_total_frames s) (tx_good_frames s) (tx_bad_frames s)
    (rx_total_frames s) (rx_good_frames s) (rx_bad_frames s).

Definition set_tx_total_frames (v : Z) (s : Serial) : Serial :=
  mkSerial (stop_event s) (receive_buffer s) (receive_message s)
    (is_receiving s) (rx_byte s) (last_rx_byte s) (transmit_buffer s)
    (transmit_message s)
    v (tx_good_frames s) (tx_bad_frames s)
    (rx_total_frames s) (rx_good_frames s) (rx_bad_frames s).

Definition set_tx_good_frames (v : Z) (s : Serial) : Serial :=
  mkSerial (stop_event s) (receive_buffer s) (receive_message s)
    (is_receiving s) (rx_byte s) (last_rx_byte s) (transmit_buffer s)
    (transmit_message s)
    (tx_total_frames s) v (tx_bad_frames s)
    (rx_total_frames s) (rx_good_frames s) (rx_bad_frames s).

Definition set_tx_bad_frames (v : Z) (s : Serial) : Serial :=
  mkSerial (stop_event s) (receive_buffer s) (receive_message s)
    (is_receiving s) (rx_byte s) (last_rx_byte s) (transmit_buffer s)
    (transmit_message s)
    (tx_total_frames s) (tx_good_frames s) v
    (rx_total_frames s) (rx_good_frames s) (rx_bad_frames s).

Definition set_rx_total_frames (v : Z) (s : Serial) : Serial :=
  mkSerial (stop_event s) (receive_buffer s) (receive_message s)
    (is_receiving s) (rx_byte s) (last_rx_byte s) (transmit_buffer s)
    (transmit_message s)
    (tx_total_frames s) (tx_good_frames s) (tx_bad_frames s)
    v (rx_good_frames s) (rx_bad_frames s).

Definition set_rx_good_frames (v : Z) (s : Serial) : Serial :=
  mkSerial (stop_event s) (receive_buffer s) (receive_message s)
    (is_receiving s) (rx_byte s) (last_rx_byte s) (transmit_buffer s)
    (transmit_message s)
    (tx_total_frames s) (tx_good_frames s) (tx_bad_frames s)
    (rx_total_frames s) v (rx_bad_frames s).

Definition set_rx_bad_frames (v : Z) (s : Serial) : Serial :=
  mkSerial (stop_event s) (receive_buffer s) (receive_message s)
    (is_receiving s) (rx_byte s) (last_rx_byte s) (transmit_buffer s)
    (transmit_message s)
    (tx_total_frames s) (tx_good_frames s) (tx_bad_frames s)
    (rx_total_frames s) (rx_good_frames s) v.

(** The attributes as [__init__] leaves them, once the port has opened. *)
Definition init : Serial :=
  {| stop_event := false;
     receive_buffer := [];
     receive_message := [];
     is_receiving := false;
     rx_byte := None;
     last_rx_byte := None;
     transmit_buffer := [];
     transmit_message := [];
     tx_total_frames := 0;
     tx_good_frames := 0;
     tx_bad_frames := 0;
     rx_total_frames := 0;
     rx_good_frames := 0;
     rx_bad_frames := 0 |}.

(** ** Calls to the collaborators

    What a method does besides changing the attributes: the raw frame it
    hands to [dehdlcify], the [notify] on [receive_condition] and the
    buffer it hands to [serial_port.write]. *)

Inductive call : Type :=
| Dehdlcify (raw : list byte)
| Notify
| Write (buf : list byte).

(** How a method ends. *)
Inductive outcome : Type :=
| Returned
| Raised.

(** The raw frames a trace of calls hands to the codec: the completed
    RawFrames of the synchroniser. *)
Fixpoint completed (tr : list call) : list (list byte) :=
  match tr with
  | [] => []
  | Dehdlcify raw :: tr' => raw :: completed tr'
  | _ :: tr' => completed tr'
  end.

(** The number of [notify] calls of a trace. *)
Fixpoint notified (tr : list call) : nat :=
  match tr with
  | [] => O
  | Notify :: tr' => S (notified tr')
  | _ :: tr' => notified tr'
  end.

(** The buffers a trace writes to the port. *)
Fixpoint written (tr : list call) : list (list byte) :=
  match tr with
  | [] => []
  | Write buf :: tr' => buf :: written tr'
  | _ :: tr' => written tr'
  end.

Section WithCodec.

Context {codec : Hdlc}.

(** [x == self.hdlc.HDLC_FLAG] for an attribute that holds a byte or ['']. *)
Definition is_flag (x : option byte) : bool :=
  match x with
  | Some b => Byte.eqb b HDLC_FLAG
  | None => false
  end.

(** *** [run]: the body of [for rx_byte in rx_bytes] *)

(** The branch "Start of frame". *)
Definition start_of_frame (b : byte) (s : Serial) : Serial :=
  let s := set_is_receiving true s in
  let s := set_receive_buffer [] s in
  let s := set_receive_buffer (receive_buffer s ++ [HDLC_FLAG]) s in
  set_receive_buffer (receive_buffer s ++ [b]) s.

(** The branch "Middle of HDLC frame". *)
Definition middle_of_frame (b : byte) (s : Serial) : Serial :=
  set_receive_buffer (receive_buffer s ++ [b]) s.

(** The branch "End of HDLC frame". *)
Definition end_of_frame (b : byte) (s : Serial) : Serial * list call :=
  let s := set_receive_buffer (receive_buffer s ++ [b]) s in
  let s := set_is_receiving false s in
  let s := set_last_rx_byte None s in
  let s := set_rx_byte None s in
  let s := set_rx_total_frames (rx_total_frames s + 1) s in
  let raw := receive_buffer s in
  match dehdlcify raw with
  | Some message =>
      let s := set_receive_message message s in
      let s := set_rx_good_frames (rx_good_frames s + 1) s in
      (* else: *)
      let s := set_receive_buffer [] s in
      (s, [Dehdlcify raw; Notify])
  | None =>
      (* except: *)
      let s := set_receive_buffer [] s in
      let s := set_receive_message [] s in
      let s := set_rx_bad_frames (rx_bad_frames s + 1) s in
      (s, [Dehdlcify raw])
  end.

Definition rx_loop_body (s : Serial) (b : byte) : Serial * list call :=
  let s := set_rx_byte (Some b) s in
  let '(s, tr) :=
    if negb (is_receiving s) && is_flag (last_rx_byte s)
       && negb (is_flag (rx_byte s))
    then (start_of_frame b s, [])
    else if is_receiving s && negb (is_flag (rx_byte s))
    then (middle_of_frame b s, [])
    else if is_receiving s && is_flag (rx_byte s)
    then end_of_frame b s
    else (s, [])
  in
  (* Always save the last received byte *)
  (set_last_rx_byte (rx_byte s) s, tr).

(** The whole [for] loop over the bytes of one read. *)
Fixpoint rx_bytes (s : Serial) (bs : list byte) : Serial * list call :=
  match bs with
  | [] => (s, [])
  | b :: bs' =>
      let '(s1, t1) := rx_loop_body s b in
      let '(s2, t2) := rx_bytes s1 bs' in
      (s2, t1 ++ t2)
  end.

(** One iteration of [while (not self.stop_event.isSet())]: [rd] is what
    the port delivers, [None] when [in_waiting] or [read] raises (then
    [stop] is called and the loop is left), [Some []] when nothing is
    waiting.  Once the event is set the loop has ended. *)
Definition run_iteration (s : Serial) (rd : option (list byte))
  : Serial * list call :=
  if stop_event s then (s, [])
  else match rd with
       | None => (set_stop_event true s, [])
       | Some bs => rx_bytes s bs
       end.

(** *** [stop] *)
Definition stop (s : Serial) : Serial := set_stop_event true s.

(** *** [receive]

    The wait on the condition only delays the caller; the result is read
    from [receive_message] afterwards. *)
Definition receive (s : Serial) : Serial * (list byte * Z) :=
  let '(message, length) :=
    match receive_message s with
    | [] => ([], -1)
    | _ :: _ => (receive_message s, Z.of_nat (length (receive_message s)))
    end in
  (set_receive_message [] s, (message, length)).

(** *** [transmit]

    [write_ok] tells whether [serial_port.write] returns or raises. *)
Definition transmit (s : Serial) (message : list byte) (write_ok : bool)
  : Serial * list call * outcome :=
  let s := set_tx_total_frames (tx_total_frames s + 1) s in
  match hdlcify message with
  | None =>
      (set_tx_bad_frames (tx_bad_frames s + 1) s, [], Raised)
  | Some buf =>
      let s := set_transmit_buffer buf s in
      if write_ok
      then (set_tx_good_frames (tx_good_frames s + 1) s,
            [Write (transmit_buffer s)], Returned)
      else (set_tx_bad_frames (tx_bad_frames s + 1) s,
            [Write (transmit_buffer s)], Raised)
  end.

(** *** [clear_statistics] *)
Definition clear_statistics (s : Serial) : Serial :=
  let s := set_tx_total_frames 0 s in
  let s := set_tx_good_frames 0 s in
  let s := set_tx_bad_frames 0 s in
  let s := set_rx_total_frames 0 s in
  let s := set_rx_good_frames 0 s in
  set_rx_bad_frames 0 s.

(** *** [get_statistics]: the six counters, in the order it prints them. *)
Definition get_statistics (s : Serial) : Z * Z * Z * Z * Z * Z :=
  (tx_total_frames s, tx_good_frames s, tx_bad_frames s,
   rx_total_frames s, rx_good_frames s, rx_bad_frames s).

(** ** Sequences of operations on one object *)

Inductive op : Type :=
| OpRun (rd : option (list byte))
| OpStop
| OpReceive
| OpTransmit (message : list byte) (write_ok : bool)
| OpClear.

Definition exec_op (s : Serial) (o : op) : Serial :=
  match o with
  | OpRun rd => fst (run_iteration s rd)
  | OpStop => stop s
  | OpReceive => fst (receive s)
  | OpTransmit message write_ok => fst (fst (transmit s message write_ok))
  | OpClear => clear_statistics s
  end.

Definition exec (s : Serial) (ops : list op) : Serial :=
  fold_left exec_op ops s.

End WithCodec.

(** ** The object shared between threads

    [Serial] is a [threading.Thread]: [run] executes on its own thread
    while [transmit], [receive], [stop], [clear_statistics] and
    [get_statistics] are called from others, and no lock guards the
    counters.  Two places count a frame in a total before they count it
    good or bad, with a call to a collaborator in between: the branch "End
    of HDLC frame" of [run] (the total, then [dehdlcify], then good or bad)
    and [transmit] (the total, then [hdlcify] and the port's [write], then
    good or bad).  Here each of the two is cut at that point, and the
    calls of other threads may fall in the cut. *)

Section Interleaved.

Context {codec : Hdlc}.

(** The branch "End of HDLC frame" up to and including the increment of
    [rx_total_frames]. *)
Definition end_of_frame_counted (b : byte) (s : Serial) : Serial :=
  let s := set_receive_buffer (receive_buffer s ++ [b]) s in
  let s := set_is_receiving false s in
  let s := set_last_rx_byte None s in
  let s := set_rx_byte None s in
  set_rx_total_frames (rx_total_frames s + 1) s.

(** The rest of the branch: the [try] statement with its [except] and
    [else] clauses. *)
Definition end_of_frame_decoded (s : Serial) : Serial * list call :=
  let raw := receive_buffer s in
  match dehdlcify raw with
  | Some message =>
      let s := set_receive_message message s in
      let s := set_rx_good_frames (rx_good_frames s + 1) s in
      let s := set_receive_buffer [] s in
      (s, [Dehdlcify raw; Notify])
  | None =>
      let s := set_receive_buffer [] s in
      let s := set_receive_message [] s in
      let s := set_rx_bad_frames (rx_bad_frames s + 1) s in
      (s, [Dehdlcify raw])
  end.

(** The body of the [for] loop on the byte [b], stopped after the
    increment of [rx_total_frames] when [b] closes a frame (the result then
    holds [true]) and run to its end otherwise. *)
Definition rx_loop_body_begin (s : Serial) (b : byte) : Serial * bool :=
  let s := set_rx_byte (Some b) s in
  if negb (is_receiving s) && is_flag (last_rx_byte s)
     && negb (is_flag (rx_byte s))
  then
    let s := start_of_frame b s in (set_last_rx_byte (rx_byte s) s, false)
  else if is_receiving s && negb (is_flag (rx_byte s))
  then
    let s := middle_of_frame b s in (set_last_rx_byte (rx_byte s) s, false)
  else if is_receiving s && is_flag (rx_byte s)
  then (end_of_frame_counted b s, true)
  else (set_last_rx_byte (rx_byte s) s, false).

(** The body of the [for] loop resumed after the increment of
    [rx_total_frames], to its end. *)
Definition rx_loop_body_finish (s : Serial) : Serial * list call :=
  let '(s, tr) := end_of_frame_decoded s in
  (set_last_rx_byte (rx_byte s) s, tr).

(** [transmit] up to and including the increment of [tx_total_frames]. *)
Definition transmit_enter (s : Serial) : Serial :=
  set_tx_total_frames (tx_total_frames s + 1) s.

(** The rest of [transmit]: the two [try] statements and the increment of
    [tx_good_frames]. *)
Definition transmit_leave (s : Serial) (message : list byte) (write_ok : bool)
  : Serial * list call * outcome :=
  match hdlcify message with
  | None =>
      (set_tx_bad_frames (tx_bad_frames s + 1) s, [], Raised)
  | Some buf =>
      let s := set_transmit_buffer buf s in
      if write_ok
      then (set_tx_good_frames (tx_good_frames s + 1) s,
            [Write (transmit_buffer s)], Returned)
      else (set_tx_bad_frames (tx_bad_frames s + 1) s,
            [Write (transmit_buffer s)], Raised)
  end.

(** The object together with where its threads stand: [rx_window] tells
    that the loop has counted a frame in [rx_total_frames] and not yet as
    good or bad; [tx_window] holds the message of a [transmit] call that
    has counted it in [tx_total_frames] and not yet as good or bad. *)
Record World : Type := mkWorld {
  object : Serial;
  rx_window : bool;
  tx_window : option (list byte)
}.

(** What a thread does in one piece. *)
Inductive event : Type :=
| LoopByte (b : byte)
| LoopDecode
| TransmitEnter (message : list byte)
| TransmitLeave (write_ok : bool)
| CallReceive
| CallClear
| CallStop.

(** One event.  The loop takes its next byte only when it has finished the
    previous one, and decodes only a frame it has counted; one [transmit]
    call is in progress at a time.  The result is [None] for an event
    that cannot come next.  The loop's bytes are those of reads it has
    already made, so the stop event is not consulted. *)
Definition step (w : World) (e : event) : option World :=
  match e with
  | LoopByte b =>
      if rx_window w then None
      else let '(s, opened) := rx_loop_body_begin (object w) b in
           Some (mkWorld s opened (tx_window w))
  | LoopDecode =>
      if rx_window w
      then Some (mkWorld (fst (rx_loop_body_finish (object w))) false
                   (tx_window w))
      else None
  | TransmitEnter message =>
      match tx_window w with
      | Some _ => None
      | None =>
          Some (mkWorld (transmit_enter (object w)) (rx_window w)
                  (Some message))
      end
  | TransmitLeave write_ok =>
      match tx_window w with
      | Some message =>
          Some (mkWorld
                  (fst (fst (transmit_leave (object w) message write_ok)))
                  (rx_window w) None)
      | None => None
      end
  | CallReceive =>
      Some (mkWorld (fst (receive (object w))) (rx_window w) (tx_window w))
  | CallClear =>
      Some (mkWorld (clear_statistics (object w)) (rx_window w)
              (tx_window w))
  | CallStop =>
      Some (mkWorld (stop (object w)) (rx_window w) (tx_window w))
  end.

(** A sequence of events, in the order they take place. *)
Fixpoint run_events (w : World) (evs : list event) : option World :=
  match evs with
  | [] => Some w
  | e :: evs' =>
      match step w e with
      | Some w' => run_events w' evs'
      | None => None
      end
  end.

(** A new object, no thread inside a window. *)
Definition start : World := mkWorld init false None.

(** No thread is inside a window. *)
Definition quiescent (w : World) : bool :=
  negb (rx_window w) &&
  match tx_window w with
  | None => true
  | Some _ => false
  end.

(** Every [clear_statistics] call of the sequence takes place while no
    thread is inside a window. *)
Fixpoint quiet_clears (w : World) (evs : list event) : bool :=
  match evs with
  | [] => true
  | e :: evs' =>
      match e with
      | CallClear => quiescent w
      | _ => true
      end &&
      match step w e with
      | Some w' => quiet_clears w' evs'
      | None => true
      end
  end.

(** The sums of the statistics, with a frame counted in a total and not
    yet as good or bad taken into account. *)
Definition balanced (w : World) : Prop :=
  tx_total_frames (object w)
    = tx_good_frames (object w) + tx_bad_frames (object w)
      + match tx_window w with Some _ => 1 | None => 0 end /\
  rx_total_frames (object w)
    = rx_good_frames (object w) + rx_bad_frames (object w)
      + (if rx_window w then 1 else 0).

End Interleaved.

(** ** Predicates of the specification *)

Section Predicates.

Context {codec : Hdlc}.

(** A raw frame starts with the flag, ends with the flag and holds no flag
    at an interior position. *)
Definition delimited (raw : list byte) : Prop :=
  hd_error raw = Some HDLC_FLAG /\
  nth_error raw (length raw - 1) = Some HDLC_FLAG /\
  forall i : nat, (0 < i < length raw - 1)%nat ->
                  nth_error raw i <> Some HDLC_FLAG.

(** While a frame is assembled the buffer is the opening flag followed by
    at least one byte, none of which is the flag. *)
Definition assembling (s : Serial) : Prop :=
  is_receiving s = true ->
  exists body, receive_buffer s = HDLC_FLAG :: body /\
               body <> [] /\ Forall (fun b => b <> HDLC_FLAG) body.

(** The synchroniser is idle. *)
Definition idle (s : Serial) : Prop := is_receiving s = false.

(** The synchroniser is idle and the previous byte is not the flag: no
    opening flag has been seen. *)
Definition unsynced (s : Serial) : Prop :=
  is_receiving s = false /\ is_flag (last_rx_byte s) = false.

(** The two sums of the statistics. *)
Definition stats_ok (s : Serial) : Prop :=
  tx_total_frames s = tx_good_frames s + tx_bad_frames s /\
  rx_total_frames s = rx_good_frames s + rx_bad_frames s.


(** The operation is an iteration of the loop of [run]. *)
Definition is_run (o : op) : bool :=
  match o with
  | OpRun _ => true
  | _ => false
  end.

(** The operation is a call of [clear_statistics]. *)
Definition is_clear (o : op) : bool :=
  match o with
  | OpClear => true
  | _ => false
  end.

(** The raw frame with the given bytes between its two flags. *)
Definition frame (body : list byte) : list byte :=
  HDLC_FLAG :: body ++ [HDLC_FLAG].

(** Bytes the synchroniser can carry between two flags: at least one, and
    none of them the flag. *)
Definition carried (body : list byte) : Prop :=
  body <> [] /\ Forall (fun b => b <> HDLC_FLAG) body.

(** What the codec's answer to a completed raw frame leaves in
    [receive_message]: the payload, or the empty list when it raises. *)
Definition delivered (raw : list byte) : list byte :=
  match dehdlcify raw with
  | Some message => message
  | None => []
  end.

(** [receive_message] after the raw frames [raws] were completed in this
    order, when it held [m0] before. *)
Definition inbox_after (raws : list (list byte)) (m0 : list byte)
  : list byte :=
  fold_left (fun _ raw => delivered raw) raws m0.

(** The number of raw frames among [raws] that the codec accepts. *)
Definition accepted (raws : list (list byte)) : nat :=
  length (filter (fun raw => match dehdlcify raw with
                             | Some _ => true
                             | None => false
                             end) raws).

(** Every counter of [s2] is at least that of [s1]. *)
Definition counters_le (s1 s2 : Serial) : Prop :=
  tx_total_frames s1 <= tx_total_frames s2 /\
  tx_good_frames s1 <= tx_good_frames s2 /\
  tx_bad_frames s1 <= tx_bad_frames s2 /\
  rx_total_frames s1 <= rx_total_frames s2 /\
  rx_good_frames s1 <= rx_good_frames s2 /\
  rx_bad_frames s1 <= rx_bad_frames s2.

(** No counter is negative. *)
Definition counters_nonneg (s : Serial) : Prop :=
  0 <= tx_total_frames s /\ 0 <= tx_good_frames s /\
  0 <= tx_bad_frames s /\ 0 <= rx_total_frames s /\
  0 <= rx_good_frames s /\ 0 <= rx_bad_frames s.

(** [s] with the attributes of the synchroniser replaced. *)
Definition with_sync (s : Serial) (receiving : bool) (buffer : list byte)
  (rx last : option byte) : Serial :=
  mkSerial (stop_event s) buffer (receive_message s) receiving rx last
    (transmit_buffer s) (transmit_message s)
    (tx_total_frames s) (tx_good_frames s) (tx_bad_frames s)
    (rx_total_frames s) (rx_good_frames s) (rx_bad_frames s).

(** The state and the calls when the closing flag completes the raw frame
    [raw]: what the branch "End of HDLC frame" and the assignment of
    [last_rx_byte] after it leave. *)
Definition frame_done (s : Serial) (raw : list byte) : Serial * list call :=
  match dehdlcify raw with
  | Some message =>
      (mkSerial (stop_event s) [] message false None None
         (transmit_buffer s) (transmit_message s)
         (tx_total_frames s) (tx_good_frames s) (tx_bad_frames s)
         (rx_total_frames s + 1) (rx_good_frames s + 1) (rx_bad_frames s),
       [Dehdlcify raw; Notify])
  | None =>
      (mkSerial (stop_event s) [] [] false None None
         (transmit_buffer s) (transmit_message s)
         (tx_total_frames s) (tx_good_frames s) (tx_bad_frames s)
         (rx_total_frames s + 1) (rx_good_frames s) (rx_bad_frames s + 1),
       [Dehdlcify raw])
  end.

(** What the loop, taken from [s] to [s'] with the calls [tr], has done to
    the counters, the inbox and the collaborators. *)
Definition rx_accounted (s s' : Serial) (tr : list call) : Prop :=
  rx_total_frames s' = rx_total_frames s + Z.of_nat (length (completed tr)) /\
  rx_good_frames s' = rx_good_frames s + Z.of_nat (notified tr) /\
  rx_bad_frames s' =
    rx_bad_frames s + Z.of_nat (length (completed tr))
    - Z.of_nat (notified tr) /\
  notified tr = accepted (completed tr) /\
  written tr = [] /\
  receive_message s' = inbox_after (completed tr) (receive_message s) /\
  tx_total_frames s' = tx_total_frames s /\
  tx_good_frames s' = tx_good_frames s /\
  tx_bad_frames s' = tx_bad_frames s /\
  transmit_buffer s' = transmit_buffer s /\
  stop_event s' = stop_event s.

(** Two objects whose synchronisers are in the same state. *)
Definition sync_alike (s1 s2 : Serial) : Prop :=
  is_receiving s1 = is_receiving s2 /\
  receive_buffer s1 = receive_buffer s2 /\
  last_rx_byte s1 = last_rx_byte s2.

(** The operation sets the stop event: a call of [stop], or an iteration
    of the loop in which the port raises. *)
Definition is_stopping (o : op) : bool :=
  match o with
  | OpStop | OpRun None => true
  | _ => false
  end.

End Predicates.

(** ** Concrete inputs

    Byte sequences and states on the checksum codec, on which the
    statements below are evaluated. *)

Module Sample.

(** The payload [0x05] with its checksum: the codec accepts it. *)
Definition good_frame : list byte := [x7e; x05; x05; x7e].

(** A wrong checksum: the codec refuses it. *)
Definition bad_frame : list byte := [x7e; x01; x02; x7e].

(** The state of a new object after its loop has processed [bs]. *)
Definition fed (bs : list byte) : Serial :=
  fst (@rx_bytes Checksum.codec init bs).

End Sample.

(** ** Properties *)

Section Properties.

Context {codec : Hdlc}.

(* The byte comparison is reasoned about through its specification. *)
#[local] Arguments Byte.eqb : simpl never.

(* Attribute reads of a state built by assignments, innermost first. *)
Ltac norm_state :=
  cbv beta iota zeta delta
    [set_stop_event set_receive_buffer set_receive_message set_is_receiving
     set_rx_byte set_last_rx_byte set_transmit_buffer
     set_tx_total_frames set_tx_good_frames set_tx_bad_frames
     set_rx_total_frames set_rx_good_frames set_rx_bad_frames
     start_of_frame middle_of_frame init
     stop_event receive_buffer receive_message is_receiving rx_byte
     last_rx_byte transmit_buffer transmit_message
     tx_total_frames tx_good_frames tx_bad_frames
     rx_total_frames rx_good_frames rx_bad_frames
     fst snd]; cbn [app].

(** *** Traces *)

Lemma completed_app (t1 t2 : list call) :
  completed (t1 ++ t2) = completed t1 ++ completed t2.
Proof.
  induction t1 as [|c t1 IH]; simpl; [reflexivity|].
  destruct c; simpl; now rewrite IH.
Qed.

(** *** The flag test *)

Lemma is_flag_Some (b : byte) :
  is_flag (Some b) = true <-> b = HDLC_FLAG.
Proof.
  simpl. split; [apply byte_dec_bl | apply byte_dec_lb].
Qed.

Lemma is_flag_Some_false (b : byte) :
  is_flag (Some b) = false <-> b <> HDLC_FLAG.
Proof.
  simpl. split.
  - apply eqb_false.
  - intros Hne. destruct (Byte.eqb b HDLC_FLAG) eqn:E; [|reflexivity].
    now apply byte_dec_bl in E.
Qed.

Lemma is_flag_flag : is_flag (Some HDLC_FLAG) = true.
Proof. now apply is_flag_Some. Qed.

(** *** The loop body, branch by branch *)

Lemma rx_loop_body_start (s : Serial) (b : byte) :
  is_receiving s = false -> is_flag (last_rx_byte s) = true ->
  b <> HDLC_FLAG ->
  rx_loop_body s b =
    (set_last_rx_byte (Some b) (start_of_frame b (set_rx_byte (Some b) s)),
     []).
Proof.
  intros Hr Hl Hb. apply is_flag_Some_false in Hb.
  unfold rx_loop_body. cbn [is_receiving last_rx_byte rx_byte set_rx_byte].
  now rewrite Hr, Hl, Hb.
Qed.

Lemma rx_loop_body_middle (s : Serial) (b : byte) :
  is_receiving s = true -> b <> HDLC_FLAG ->
  rx_loop_body s b =
    (set_last_rx_byte (Some b) (middle_of_frame b (set_rx_byte (Some b) s)),
     []).
Proof.
  intros Hr Hb. apply is_flag_Some_false in Hb.
  unfold rx_loop_body. cbn [is_receiving last_rx_byte rx_byte set_rx_byte].
  now rewrite Hr, Hb.
Qed.

Lemma rx_loop_body_end (s : Serial) :
  is_receiving s = true ->
  rx_loop_body s HDLC_FLAG =
    (let '(s', tr) := end_of_frame HDLC_FLAG (set_rx_byte (Some HDLC_FLAG) s)
     in (set_last_rx_byte (rx_byte s') s', tr)).
Proof.
  intros Hr.
  unfold rx_loop_body. cbn [is_receiving last_rx_byte rx_byte set_rx_byte].
  now rewrite Hr, is_flag_flag.
Qed.

Lemma rx_loop_body_skip (s : Serial) (b : byte) :
  is_receiving s = false ->
  is_flag (last_rx_byte s) = false \/ b = HDLC_FLAG ->
  rx_loop_body s b = (set_last_rx_byte (Some b) (set_rx_byte (Some b) s), []).
Proof.
  intros Hr H.
  unfold rx_loop_body. cbn [is_receiving last_rx_byte rx_byte set_rx_byte].
  rewrite Hr. destruct H as [Hl | Hb].
  - now rewrite Hl.
  - apply is_flag_Some in Hb. rewrite Hb. cbn.
    now rewrite andb_false_r.
Qed.

(** Every byte falls in one of the four branches. *)
Lemma rx_loop_body_branch (s : Serial) (b : byte) :
  (is_receiving s = false /\ is_flag (last_rx_byte s) = true /\
   b <> HDLC_FLAG) \/
  (is_receiving s = true /\ b <> HDLC_FLAG) \/
  (is_receiving s = true /\ b = HDLC_FLAG) \/
  (is_receiving s = false /\
   (is_flag (last_rx_byte s) = false \/ b = HDLC_FLAG)).
Proof.
  destruct (is_receiving s), (is_flag (last_rx_byte s)),
    (byte_eq_dec b HDLC_FLAG); auto 10.
Qed.

(** The state and trace of the branch "End of HDLC frame". *)
Lemma end_of_frame_good (s : Serial) (b : byte) (message : list byte) :
  dehdlcify (receive_buffer s ++ [b]) = Some message ->
  end_of_frame b s =
    (mkSerial (stop_event s) [] message false None None
       (transmit_buffer s) (transmit_message s)
       (tx_total_frames s) (tx_good_frames s) (tx_bad_frames s)
       (rx_total_frames s + 1) (rx_good_frames s + 1) (rx_bad_frames s),
     [Dehdlcify (receive_buffer s ++ [b]); Notify]).
Proof.
  intros H. unfold end_of_frame. cbn. now rewrite H.
Qed.

Lemma end_of_frame_bad (s : Serial) (b : byte) :
  dehdlcify (receive_buffer s ++ [b]) = None ->
  end_of_frame b s =
    (mkSerial (stop_event s) [] [] false None None
       (transmit_buffer s) (transmit_message s)
       (tx_total_frames s) (tx_good_frames s) (tx_bad_frames s)
       (rx_total_frames s + 1) (rx_good_frames s) (rx_bad_frames s + 1),
     [Dehdlcify (receive_buffer s ++ [b])]).
Proof.
  intros H. unfold end_of_frame. cbn. now rewrite H.
Qed.

Lemma rx_bytes_app (s : Serial) (bs1 bs2 : list byte) :
  rx_bytes s (bs1 ++ bs2) =
    (fst (rx_bytes (fst (rx_bytes s bs1)) bs2),
     snd (rx_bytes s bs1) ++ snd (rx_bytes (fst (rx_bytes s bs1)) bs2)).
Proof.
  revert s. induction bs1 as [|b bs1 IH]; intros s.
  - cbn [app rx_bytes fst snd]. now destruct (rx_bytes s bs2).
  - cbn [app rx_bytes]. destruct (rx_loop_body s b) as [s1 t1]. rewrite IH.
    destruct (rx_bytes s1 bs1) as [s2 t2]. cbn [fst snd].
    now rewrite app_assoc.
Qed.

Lemma rx_bytes_cons (s : Serial) (b : byte) (bs : list byte) :
  rx_bytes s (b :: bs) =
    (fst (rx_bytes (fst (rx_loop_body s b)) bs),
     snd (rx_loop_body s b) ++ snd (rx_bytes (fst (rx_loop_body s b)) bs)).
Proof.
  cbn [rx_bytes]. destruct (rx_loop_body s b) as [s1 t1]. cbn [fst snd].
  now destruct (rx_bytes s1 bs).
Qed.

(** *** What [receive] does to the state and what it returns *)

Lemma receive_state (s : Serial) :
  fst (receive s) = set_receive_message [] s.
Proof. unfold receive. now destruct (receive_message s). Qed.

(** *** Frame boundaries *)

Lemma delimited_intro (body : list byte) :
  Forall (fun b => b <> HDLC_FLAG) body ->
  delimited (HDLC_FLAG :: body ++ [HDLC_FLAG]).
Proof.
  intros Hbody. unfold delimited.
  assert (Hlen : (length (HDLC_FLAG :: body ++ [HDLC_FLAG]) - 1
                  = S (length body))%nat).
  { cbn [length]. rewrite length_app. cbn [length]. lia. }
  rewrite Hlen. repeat split.
  - cbn [nth_error]. rewrite nth_error_app2 by lia.
    now rewrite Nat.sub_diag.
  - intros i Hi. destruct i as [|j]; [lia|].
    cbn [nth_error]. rewrite nth_error_app1 by lia.
    intros Hj. apply nth_error_In in Hj.
    rewrite Forall_forall in Hbody. now apply (Hbody _ Hj).
Qed.

Lemma assembling_init : assembling init.
Proof. intros H. discriminate H. Qed.

(** One byte keeps the buffer well formed, and a frame completed by it is
    delimited. *)
Lemma rx_loop_body_assembling (s : Serial) (b : byte) :
  assembling s ->
  assembling (fst (rx_loop_body s b)) /\
  Forall delimited (completed (snd (rx_loop_body s b))).
Proof.
  intros Hinv.
  destruct (rx_loop_body_branch s b)
    as [(Hr & Hl & Hb) | [(Hr & Hb) | [(Hr & Hb) | (Hr & Hb)]]].
  - rewrite rx_loop_body_start by assumption. split; [|constructor].
    intros _. exists [b]. cbn. repeat split; [discriminate|].
    now constructor.
  - rewrite rx_loop_body_middle by assumption. split; [|constructor].
    destruct (Hinv Hr) as (body & Hbuf & Hne & Hall).
    intros _. exists (body ++ [b]). cbn. rewrite Hbuf. repeat split.
    + now destruct body.
    + apply Forall_app. split; [assumption|]. now constructor.
  - subst b. rewrite rx_loop_body_end by assumption.
    destruct (Hinv Hr) as (body & Hbuf & Hne & Hall).
    destruct (dehdlcify (receive_buffer s ++ [HDLC_FLAG])) as [m|] eqn:Hd.
    + rewrite (end_of_frame_good _ _ m) by exact Hd. cbn. split.
      * intros H. discriminate H.
      * constructor; [|constructor]. rewrite Hbuf.
        now apply delimited_intro.
    + rewrite end_of_frame_bad by exact Hd. cbn. split.
      * intros H. discriminate H.
      * constructor; [|constructor]. rewrite Hbuf.
        now apply delimited_intro.
  - rewrite rx_loop_body_skip by assumption. split; [|constructor].
    intros H. cbn in H. congruence.
Qed.

Lemma rx_bytes_assembling (bs : list byte) (s : Serial) :
  assembling s ->
  assembling (fst (rx_bytes s bs)) /\
  Forall delimited (completed (snd (rx_bytes s bs))).
Proof.
  revert s. induction bs as [|b bs IH]; intros s Hinv.
  - split; [exact Hinv | constructor].
  - rewrite rx_bytes_cons. cbn [fst snd].
    destruct (rx_loop_body_assembling s b Hinv) as [Hinv1 Hfr1].
    destruct (IH _ Hinv1) as [Hinv2 Hfr2].
    split; [exact Hinv2|].
    rewrite completed_app. apply Forall_app. now split.
Qed.

Lemma exec_op_assembling (s : Serial) (o : op) :
  assembling s -> assembling (exec_op s o).
Proof.
  intros Hs. destruct o as [rd| | |message write_ok|]; cbn [exec_op].
  - unfold run_iteration. destruct (stop_event s); [exact Hs|].
    destruct rd as [bs|]; [now apply rx_bytes_assembling | exact Hs].
  - exact Hs.
  - rewrite receive_state. exact Hs.
  - unfold transmit.
    destruct (hdlcify message) as [buf|]; [destruct write_ok|]; exact Hs.
  - exact Hs.
Qed.

Lemma exec_assembling (ops : list op) (s : Serial) :
  assembling s -> assembling (exec s ops).
Proof.
  revert s. induction ops as [|o ops IH]; intros s Hs; [exact Hs|].
  cbn [exec fold_left]. now apply IH, exec_op_assembling.
Qed.

(** [C1] Whatever bytes are fed to the loop of a new object, and whatever
    operations were run on the object before, every raw frame the loop
    completes (hands to the codec) starts with the flag, ends with the flag
    and has no flag at an interior position. *)
Theorem completed_frames_delimited (ops : list op) (bs : list byte) :
  Forall delimited (completed (snd (rx_bytes init bs))) /\
  Forall delimited (completed (snd (rx_bytes (exec init ops) bs))).
Proof.
  split; apply rx_bytes_assembling.
  - exact assembling_init.
  - apply exec_assembling. exact assembling_init.
Qed.

(** *** Input that completes no frame *)

Lemma rx_bytes_flags (n : nat) (s : Serial) :
  idle s ->
  idle (fst (rx_bytes s (repeat HDLC_FLAG n))) /\
  snd (rx_bytes s (repeat HDLC_FLAG n)) = [].
Proof.
  revert s. induction n as [|n IH]; intros s Hidle.
  - now split.
  - cbn [repeat]. rewrite rx_bytes_cons. cbn [fst snd].
    rewrite rx_loop_body_skip by (auto using Hidle).
    cbn [fst snd app]. apply IH. exact Hidle.
Qed.

Lemma rx_bytes_unsynced (bs : list byte) (s : Serial) :
  unsynced s -> Forall (fun b => b <> HDLC_FLAG) bs ->
  unsynced (fst (rx_bytes s bs)) /\ snd (rx_bytes s bs) = [].
Proof.
  revert s. induction bs as [|b bs IH]; intros s [Hr Hl] Hall.
  - now repeat split.
  - inversion Hall as [|? ? Hb Hbs]; subst.
    rewrite rx_bytes_cons. cbn [fst snd].
    rewrite rx_loop_body_skip by auto.
    cbn [fst snd app]. apply IH; [|exact Hbs].
    split; [exact Hr|]. now apply is_flag_Some_false.
Qed.

Lemma unsynced_init : unsynced init.
Proof. now split. Qed.

(** [C7] From an idle synchroniser a run of [n] flags completes no frame;
    bytes other than the flag that arrive before any flag was seen complete
    no frame, on a new object and on any idle one whose previous byte is
    not the flag, also when the run of flags follows them. *)
Theorem no_frame_without_sync (s : Serial) (pre : list byte) (n : nat) :
  idle s ->
  Forall (fun b => b <> HDLC_FLAG) pre ->
  completed (snd (rx_bytes s (repeat HDLC_FLAG n))) = [] /\
  completed (snd (rx_bytes init pre)) = [] /\
  completed (snd (rx_bytes init (pre ++ repeat HDLC_FLAG n))) = [] /\
  (is_flag (last_rx_byte s) = false ->
   completed (snd (rx_bytes s pre)) = []).
Proof.
  intros Hidle Hpre.
  destruct (rx_bytes_flags n s Hidle) as [_ Hflags].
  destruct (rx_bytes_unsynced pre init unsynced_init Hpre) as [[Hi _] Hinit].
  destruct (rx_bytes_flags n _ Hi) as [_ Hboth].
  repeat split.
  - now rewrite Hflags.
  - now rewrite Hinit.
  - rewrite rx_bytes_app. cbn [snd]. now rewrite Hinit, Hboth.
  - intros Hl.
    destruct (rx_bytes_unsynced pre s (conj Hidle Hl) Hpre) as [_ Hs].
    now rewrite Hs.
Qed.

(** [C8] When the flag is neither [0x01] nor [0x02], the bytes
    [FLAG, 0x01, 0x02, FLAG] fed to a new object complete exactly one raw
    frame, [FLAG, 0x01, 0x02, FLAG], and [rx_total_frames] becomes 1. *)
Theorem scenario_one_frame :
  HDLC_FLAG <> x01 -> HDLC_FLAG <> x02 ->
  completed (snd (rx_bytes init [HDLC_FLAG; x01; x02; HDLC_FLAG]))
    = [[HDLC_FLAG; x01; x02; HDLC_FLAG]] /\
  rx_total_frames (fst (rx_bytes init [HDLC_FLAG; x01; x02; HDLC_FLAG])) = 1.
Proof.
  intros H1 H2.
  rewrite rx_bytes_cons, rx_loop_body_skip by auto. norm_state.
  rewrite rx_bytes_cons, rx_loop_body_start
    by first [reflexivity | exact is_flag_flag | congruence].
  norm_state.
  rewrite rx_bytes_cons, rx_loop_body_middle
    by first [reflexivity | congruence].
  norm_state.
  rewrite rx_bytes_cons, rx_loop_body_end by reflexivity.
  destruct (dehdlcify [HDLC_FLAG; x01; x02; HDLC_FLAG]) as [m|] eqn:Hd.
  - rewrite (end_of_frame_good _ _ m) by exact Hd.
    norm_state. split; reflexivity.
  - rewrite end_of_frame_bad by exact Hd.
    norm_state. split; reflexivity.
Qed.

(** *** Statistics *)

Lemma stats_ok_init : stats_ok init.
Proof. now split. Qed.

Lemma clear_statistics_stats_ok (s : Serial) : stats_ok (clear_statistics s).
Proof. now split. Qed.

Lemma rx_loop_body_stats_ok (s : Serial) (b : byte) :
  stats_ok s -> stats_ok (fst (rx_loop_body s b)).
Proof.
  intros [Htx Hrx].
  destruct (rx_loop_body_branch s b)
    as [(Hr & Hl & Hb) | [(Hr & Hb) | [(Hr & Hb) | (Hr & Hb)]]].
  - rewrite rx_loop_body_start by assumption. now split.
  - rewrite rx_loop_body_middle by assumption. now split.
  - subst b. rewrite rx_loop_body_end by assumption.
    destruct (dehdlcify (receive_buffer s ++ [HDLC_FLAG])) as [m|] eqn:Hd.
    + rewrite (end_of_frame_good _ _ m) by exact Hd.
      split; cbn; lia.
    + rewrite end_of_frame_bad by exact Hd.
      split; cbn; lia.
  - rewrite rx_loop_body_skip by assumption. now split.
Qed.

Lemma rx_bytes_stats_ok (bs : list byte) (s : Serial) :
  stats_ok s -> stats_ok (fst (rx_bytes s bs)).
Proof.
  revert s. induction bs as [|b bs IH]; intros s Hs; [exact Hs|].
  rewrite rx_bytes_cons. cbn [fst].
  now apply IH, rx_loop_body_stats_ok.
Qed.

Lemma transmit_stats_ok (s : Serial) (message : list byte) (write_ok : bool) :
  stats_ok s -> stats_ok (fst (fst (transmit s message write_ok))).
Proof.
  intros [Htx Hrx]. unfold transmit.
  destruct (hdlcify message) as [buf|]; [destruct write_ok|];
    split; cbn; lia.
Qed.

Lemma exec_op_stats_ok (s : Serial) (o : op) :
  stats_ok s -> stats_ok (exec_op s o).
Proof.
  intros Hs. destruct o as [rd| | |message write_ok|]; cbn [exec_op].
  - unfold run_iteration. destruct (stop_event s); [exact Hs|].
    destruct rd as [bs|]; [now apply rx_bytes_stats_ok | exact Hs].
  - exact Hs.
  - rewrite receive_state. exact Hs.
  - now apply transmit_stats_ok.
  - apply clear_statistics_stats_ok.
Qed.

Lemma exec_stats_ok (ops : list op) (s : Serial) :
  stats_ok s -> stats_ok (exec s ops).
Proof.
  revert s. induction ops as [|o ops IH]; intros s Hs; [exact Hs|].
  cbn [exec fold_left]. now apply IH, exec_op_stats_ok.
Qed.

(** When the operations run one at a time, each to its end before the
    next, the two sums [tx_total = tx_good + tx_bad] and
    [rx_total = rx_good + rx_bad] hold on a new object, after every
    sequence of loop iterations, [stop], [receive], [transmit] (returning
    or raising) and [clear_statistics] calls on it, after every byte the
    loop has processed since, and after [clear_statistics] on any state. *)
Theorem statistics_sums (ops : list op) (bs : list byte) (s : Serial) :
  stats_ok init /\
  stats_ok (exec init ops) /\
  stats_ok (fst (rx_bytes (exec init ops) bs)) /\
  stats_ok (clear_statistics s).
Proof.
  pose proof (exec_stats_ok ops init stats_ok_init) as Hops.
  repeat split;
    try apply stats_ok_init; try apply Hops;
    try apply (rx_bytes_stats_ok bs _ Hops).
Qed.

(** [C6] When [hdlcify] raises on the payload, [transmit] leaves
    [tx_total_frames] and [tx_bad_frames] one higher, [tx_good_frames] as it
    was, does not call the port's [write], and raises. *)
Theorem transmit_encode_failure
  (s : Serial) (message : list byte) (write_ok : bool) :
  hdlcify message = None ->
  let '(s', tr, result) := transmit s message write_ok in
  tx_total_frames s' = tx_total_frames s + 1 /\
  tx_bad_frames s' = tx_bad_frames s + 1 /\
  tx_good_frames s' = tx_good_frames s /\
  written tr = [] /\
  result = Raised.
Proof.
  intros Henc. unfold transmit. rewrite Henc. now repeat split.
Qed.

(** *** The inbox *)

(** A byte that completes no frame leaves the inbox alone and calls no
    collaborator. *)
Lemma rx_loop_body_quiet (s : Serial) (b : byte) :
  completed (snd (rx_loop_body s b)) = [] ->
  receive_message (fst (rx_loop_body s b)) = receive_message s /\
  snd (rx_loop_body s b) = [].
Proof.
  destruct (rx_loop_body_branch s b)
    as [(Hr & Hl & Hb) | [(Hr & Hb) | [(Hr & Hb) | (Hr & Hb)]]].
  - rewrite rx_loop_body_start by assumption. now split.
  - rewrite rx_loop_body_middle by assumption. now split.
  - subst b. rewrite rx_loop_body_end by assumption.
    destruct (dehdlcify (receive_buffer s ++ [HDLC_FLAG])) as [m|] eqn:Hd.
    + rewrite (end_of_frame_good _ _ m) by exact Hd. discriminate.
    + rewrite end_of_frame_bad by exact Hd. discriminate.
  - rewrite rx_loop_body_skip by assumption. now split.
Qed.

Lemma rx_bytes_quiet (bs : list byte) (s : Serial) :
  completed (snd (rx_bytes s bs)) = [] ->
  receive_message (fst (rx_bytes s bs)) = receive_message s /\
  snd (rx_bytes s bs) = [].
Proof.
  revert s. induction bs as [|b bs IH]; intros s; [now split|].
  rewrite rx_bytes_cons. cbn [fst snd]. rewrite completed_app.
  intros H. apply app_eq_nil in H. destruct H as [H1 H2].
  destruct (rx_loop_body_quiet s b H1) as [Hm1 Ht1].
  destruct (IH _ H2) as [Hm2 Ht2].
  rewrite Hm2, Hm1, Ht1, Ht2. now split.
Qed.

(** What [receive] returns is decided by [receive_message]. *)
Lemma receive_empty (s : Serial) :
  receive_message s = [] -> snd (receive s) = ([], -1).
Proof. intros H. unfold receive. now rewrite H. Qed.

Lemma receive_message_returned (s : Serial) :
  fst (snd (receive s)) = receive_message s.
Proof. unfold receive. now destruct (receive_message s). Qed.

(** The closing flag of a frame the codec refuses. *)
Lemma rx_loop_body_refused (s : Serial) :
  is_receiving s = true ->
  dehdlcify (receive_buffer s ++ [HDLC_FLAG]) = None ->
  rx_loop_body s HDLC_FLAG =
    (mkSerial (stop_event s) [] [] false None None
       (transmit_buffer s) (transmit_message s)
       (tx_total_frames s) (tx_good_frames s) (tx_bad_frames s)
       (rx_total_frames s + 1) (rx_good_frames s) (rx_bad_frames s + 1),
     [Dehdlcify (receive_buffer s ++ [HDLC_FLAG])]).
Proof.
  intros Hr Hd. rewrite rx_loop_body_end by exact Hr.
  now rewrite end_of_frame_bad by exact Hd.
Qed.

(** The closing flag of a frame the codec accepts. *)
Lemma rx_loop_body_accepted (s : Serial) (message : list byte) :
  is_receiving s = true ->
  dehdlcify (receive_buffer s ++ [HDLC_FLAG]) = Some message ->
  rx_loop_body s HDLC_FLAG =
    (mkSerial (stop_event s) [] message false None None
       (transmit_buffer s) (transmit_message s)
       (tx_total_frames s) (tx_good_frames s) (tx_bad_frames s)
       (rx_total_frames s + 1) (rx_good_frames s + 1) (rx_bad_frames s),
     [Dehdlcify (receive_buffer s ++ [HDLC_FLAG]); Notify]).
Proof.
  intros Hr Hd. rewrite rx_loop_body_end by exact Hr.
  now rewrite (end_of_frame_good _ _ message) by exact Hd.
Qed.

(** [C3] When the closing flag completes a raw frame the codec refuses,
    [rx_total_frames] and [rx_bad_frames] are one higher, [rx_good_frames]
    is as it was, the condition is not notified, and [receive], called
    after any further bytes that complete no frame, returns the empty
    message with length -1. *)
Theorem decode_failure (s : Serial) (rest : list byte) :
  let s1 := fst (rx_loop_body s HDLC_FLAG) in
  let tr := snd (rx_loop_body s HDLC_FLAG) in
  is_receiving s = true ->
  dehdlcify (receive_buffer s ++ [HDLC_FLAG]) = None ->
  completed (snd (rx_bytes s1 rest)) = [] ->
  completed tr = [receive_buffer s ++ [HDLC_FLAG]] /\
  rx_total_frames s1 = rx_total_frames s + 1 /\
  rx_bad_frames s1 = rx_bad_frames s + 1 /\
  rx_good_frames s1 = rx_good_frames s /\
  notified (tr ++ snd (rx_bytes s1 rest)) = O /\
  snd (receive (fst (rx_bytes s1 rest))) = ([], -1).
Proof.
  intros s1 tr Hr Hd Hrest. subst s1 tr.
  destruct (rx_bytes_quiet rest _ Hrest) as [Hm Ht].
  rewrite Ht. rewrite rx_loop_body_refused in * by assumption.
  repeat split. apply receive_empty. now rewrite Hm.
Qed.

(** [C4, as the code has it] When a decoded frame [A] is unread in the
    inbox and a later raw frame is refused by the codec, the refusal
    empties the inbox together with the buffer: [receive], called after any
    further bytes that complete no frame, returns the empty message with
    length -1, and [A] is lost. *)
Theorem decode_failure_empties_inbox
  (s0 : Serial) (mid rest A : list byte) :
  let s1 := fst (rx_loop_body s0 HDLC_FLAG) in
  let s2 := fst (rx_bytes s1 mid) in
  let s3 := fst (rx_loop_body s2 HDLC_FLAG) in
  let s4 := fst (rx_bytes s3 rest) in
  is_receiving s0 = true ->
  dehdlcify (receive_buffer s0 ++ [HDLC_FLAG]) = Some A ->
  completed (snd (rx_bytes s1 mid)) = [] ->
  is_receiving s2 = true ->
  dehdlcify (receive_buffer s2 ++ [HDLC_FLAG]) = None ->
  completed (snd (rx_bytes s3 rest)) = [] ->
  receive_message s2 = A /\
  receive_message s4 = [] /\
  snd (receive s4) = ([], -1).
Proof.
  intros s1 s2 s3 s4 Hr0 HdA Hmid Hr2 Hd2 Hrest.
  destruct (rx_bytes_quiet mid _ Hmid) as [Hm2 _].
  destruct (rx_bytes_quiet rest _ Hrest) as [Hm4 _].
  fold s2 in Hm2. fold s4 in Hm4.
  assert (H1 : receive_message s1 = A).
  { subst s1. now rewrite (rx_loop_body_accepted _ A) by assumption. }
  assert (H3 : receive_message s3 = []).
  { subst s3. now rewrite rx_loop_body_refused by assumption. }
  repeat split.
  - now rewrite Hm2.
  - now rewrite Hm4.
  - apply receive_empty. now rewrite Hm4.
Qed.

(** [C5] When a frame decoded to [A] and then a frame decoded to [B] are
    published with no [receive] in between, only bytes that complete no
    frame, a [receive] that follows returns the message [B]; it returns [A]
    only if [A] is [B].  Its length is that of [B], or -1 when [B] is
    empty. *)
Theorem inbox_overwrite (s0 : Serial) (mid rest A B : list byte) :
  let s1 := fst (rx_loop_body s0 HDLC_FLAG) in
  let s2 := fst (rx_bytes s1 mid) in
  let s3 := fst (rx_loop_body s2 HDLC_FLAG) in
  let s4 := fst (rx_bytes s3 rest) in
  is_receiving s0 = true ->
  dehdlcify (receive_buffer s0 ++ [HDLC_FLAG]) = Some A ->
  completed (snd (rx_bytes s1 mid)) = [] ->
  is_receiving s2 = true ->
  dehdlcify (receive_buffer s2 ++ [HDLC_FLAG]) = Some B ->
  completed (snd (rx_bytes s3 rest)) = [] ->
  receive_message s2 = A /\
  fst (snd (receive s4)) = B /\
  (A <> B -> fst (snd (receive s4)) <> A) /\
  snd (snd (receive s4)) =
    match B with [] => -1 | _ :: _ => Z.of_nat (length B) end.
Proof.
  intros s1 s2 s3 s4 Hr0 HdA Hmid Hr2 HdB Hrest.
  destruct (rx_bytes_quiet mid _ Hmid) as [Hm2 _].
  destruct (rx_bytes_quiet rest _ Hrest) as [Hm4 _].
  fold s2 in Hm2. fold s4 in Hm4.
  assert (H1 : receive_message s1 = A).
  { subst s1. now rewrite (rx_loop_body_accepted _ A) by assumption. }
  assert (H3 : receive_message s3 = B).
  { subst s3. now rewrite (rx_loop_body_accepted _ B) by assumption. }
  assert (H4 : receive_message s4 = B) by now rewrite Hm4.
  repeat split.
  - now rewrite Hm2.
  - now rewrite receive_message_returned.
  - rewrite receive_message_returned, H4. intros Hne Heq. now apply Hne.
  - unfold receive. rewrite H4. now destruct B.
Qed.

(** [C10] When the codec accepts a raw frame and returns the empty
    payload, the frame is counted as good and the condition is notified,
    yet [receive] returns the empty message with length -1, which is what
    it returns on a new object, where nothing is pending. *)
Theorem empty_payload_reads_as_nothing (s : Serial) (rest : list byte) :
  let s1 := fst (rx_loop_body s HDLC_FLAG) in
  let tr := snd (rx_loop_body s HDLC_FLAG) in
  is_receiving s = true ->
  dehdlcify (receive_buffer s ++ [HDLC_FLAG]) = Some [] ->
  completed (snd (rx_bytes s1 rest)) = [] ->
  rx_good_frames s1 = rx_good_frames s + 1 /\
  notified tr = 1%nat /\
  snd (receive (fst (rx_bytes s1 rest))) = ([], -1) /\
  snd (receive (fst (rx_bytes s1 rest))) = snd (receive init).
Proof.
  intros s1 tr Hr Hd Hrest.
  destruct (rx_bytes_quiet rest _ Hrest) as [Hm _]. fold s1 in Hm.
  pose proof (rx_loop_body_accepted s [] Hr Hd) as Hstep.
  assert (Hmsg : receive_message s1 = []) by (subst s1; now rewrite Hstep).
  assert (He : snd (receive (fst (rx_bytes s1 rest))) = ([], -1)).
  { apply receive_empty. now rewrite Hm. }
  split; [subst s1; now rewrite Hstep|].
  split; [subst tr; now rewrite Hstep|].
  split; [exact He | now rewrite He].
Qed.

(** *** Counting after [clear_statistics] *)








(** *** The synchroniser on whole frames *)

Lemma rx_loop_body_closing (s : Serial) :
  is_receiving s = true ->
  rx_loop_body s HDLC_FLAG = frame_done s (receive_buffer s ++ [HDLC_FLAG]).
Proof.
  intros Hr. unfold frame_done.
  destruct (dehdlcify (receive_buffer s ++ [HDLC_FLAG])) as [m|] eqn:Hd.
  - now apply rx_loop_body_accepted.
  - now apply rx_loop_body_refused.
Qed.

Lemma rx_loop_body_skip_sync (s : Serial) (b : byte) :
  is_receiving s = false ->
  is_flag (last_rx_byte s) = false \/ b = HDLC_FLAG ->
  rx_loop_body s b =
    (with_sync s false (receive_buffer s) (Some b) (Some b), []).
Proof.
  intros Hr H. rewrite rx_loop_body_skip by assumption.
  unfold with_sync, set_last_rx_byte, set_rx_byte. cbn. now rewrite Hr.
Qed.

Lemma rx_loop_body_start_sync (s : Serial) (b : byte) :
  is_receiving s = false -> is_flag (last_rx_byte s) = true ->
  b <> HDLC_FLAG ->
  rx_loop_body s b = (with_sync s true [HDLC_FLAG; b] (Some b) (Some b), []).
Proof.
  intros Hr Hl Hb. rewrite rx_loop_body_start by assumption.
  reflexivity.
Qed.

Lemma rx_loop_body_middle_sync (s : Serial) (b : byte) :
  is_receiving s = true -> b <> HDLC_FLAG ->
  rx_loop_body s b =
    (with_sync s true (receive_buffer s ++ [b]) (Some b) (Some b), []).
Proof.
  intros Hr Hb. rewrite rx_loop_body_middle by assumption.
  unfold with_sync, set_last_rx_byte, middle_of_frame, set_receive_buffer,
    set_rx_byte. cbn. now rewrite Hr.
Qed.

Lemma with_sync_same (s : Serial) :
  with_sync s (is_receiving s) (receive_buffer s) (rx_byte s)
    (last_rx_byte s) = s.
Proof. now destruct s. Qed.

Lemma frame_done_with_sync
  (s : Serial) (r : bool) (buf : list byte) (x l : option byte)
  (raw : list byte) :
  frame_done (with_sync s r buf x l) raw = frame_done s raw.
Proof. reflexivity. Qed.

(** Bytes of a frame in progress only extend the buffer. *)
Lemma rx_bytes_middle_sync (body : list byte) (s : Serial) :
  is_receiving s = true ->
  Forall (fun b => b <> HDLC_FLAG) body ->
  exists x l,
    rx_bytes s body = (with_sync s true (receive_buffer s ++ body) x l, []).
Proof.
  revert s. induction body as [|b body IH]; intros s Hr Hall.
  - exists (rx_byte s), (last_rx_byte s). cbn [rx_bytes].
    rewrite app_nil_r, <- Hr. now rewrite with_sync_same.
  - inversion Hall as [|? ? Hb Hbody]; subst.
    rewrite rx_bytes_cons, rx_loop_body_middle_sync by assumption.
    cbn [fst snd app].
    destruct (IH (with_sync s true (receive_buffer s ++ [b])
                    (Some b) (Some b)) eq_refl Hbody) as (x & l & Heq).
    exists x, l. rewrite Heq. cbn [fst snd].
    unfold with_sync. cbn. now rewrite <- app_assoc.
Qed.

(** A whole frame met by an idle synchroniser is completed, whatever the
    previous byte was. *)
Lemma rx_bytes_frame (s : Serial) (body : list byte) :
  idle s -> carried body ->
  rx_bytes s (frame body) = frame_done s (frame body).
Proof.
  intros Hidle [Hne Hall]. destruct body as [|b0 rest]; [now elim Hne|].
  inversion Hall as [|? ? Hb0 Hrest]; subst.
  unfold frame. cbn [app].
  rewrite rx_bytes_cons, rx_loop_body_skip_sync by auto.
  cbn [fst snd app].
  rewrite rx_bytes_cons, rx_loop_body_start_sync
    by first [reflexivity | exact is_flag_flag | assumption].
  cbn [fst snd app].
  rewrite rx_bytes_app.
  destruct (rx_bytes_middle_sync rest
              (with_sync (with_sync s false (receive_buffer s)
                            (Some HDLC_FLAG) (Some HDLC_FLAG))
                 true [HDLC_FLAG; b0] (Some b0) (Some b0))
              eq_refl Hrest) as (x & l & Heq).
  rewrite Heq. cbn [fst snd app].
  rewrite rx_bytes_cons, rx_loop_body_closing by reflexivity.
  cbn [rx_bytes fst snd]. rewrite app_nil_r.
  now destruct (frame_done _ _).
Qed.

Lemma frame_done_idle (s : Serial) (raw : list byte) :
  unsynced (fst (frame_done s raw)).
Proof. unfold frame_done. now destruct (dehdlcify raw). Qed.

Lemma frame_done_completed (s : Serial) (raw : list byte) :
  completed (snd (frame_done s raw)) = [raw].
Proof. unfold frame_done. now destruct (dehdlcify raw). Qed.

Lemma frame_done_inbox (s : Serial) (raw : list byte) :
  receive_message (fst (frame_done s raw)) = delivered raw.
Proof. unfold frame_done, delivered. now destruct (dehdlcify raw). Qed.

Lemma frame_done_notified (s : Serial) (raw : list byte) :
  notified (snd (frame_done s raw)) = accepted [raw].
Proof. unfold frame_done, accepted. cbn. now destruct (dehdlcify raw). Qed.

Lemma frame_done_counters (s : Serial) (raw : list byte) :
  rx_total_frames (fst (frame_done s raw)) = rx_total_frames s + 1 /\
  rx_good_frames (fst (frame_done s raw))
    = rx_good_frames s + Z.of_nat (accepted [raw]) /\
  rx_bad_frames (fst (frame_done s raw))
    = rx_bad_frames s + 1 - Z.of_nat (accepted [raw]).
Proof.
  unfold frame_done, accepted. cbn.
  destruct (dehdlcify raw); cbn; lia.
Qed.

(** [X1] A whole frame (flag, one or more bytes other than the flag, flag)
    that reaches an idle synchroniser is completed as exactly that raw
    frame, whatever the byte before it was: the frame is counted, the
    condition is notified if and only if the codec accepts it, the inbox
    holds the payload (empty when the codec refuses), and the synchroniser
    is idle again with an empty buffer and no previous byte. *)
Theorem frame_detected (s : Serial) (body : list byte) :
  idle s -> carried body ->
  completed (snd (rx_bytes s (frame body))) = [frame body] /\
  notified (snd (rx_bytes s (frame body))) = accepted [frame body] /\
  rx_total_frames (fst (rx_bytes s (frame body))) = rx_total_frames s + 1 /\
  receive_message (fst (rx_bytes s (frame body))) = delivered (frame body) /\
  is_receiving (fst (rx_bytes s (frame body))) = false /\
  receive_buffer (fst (rx_bytes s (frame body))) = [] /\
  last_rx_byte (fst (rx_bytes s (frame body))) = None.
Proof.
  intros Hidle Hbody. rewrite (rx_bytes_frame s body Hidle Hbody).
  split; [apply frame_done_completed|].
  split; [apply frame_done_notified|].
  split; [apply frame_done_counters|].
  split; [apply frame_done_inbox|].
  unfold frame_done. now destruct (dehdlcify (frame body)).
Qed.

(** [X2] One flag before a whole frame resynchronises from any state: if a
    frame was being assembled the flag completes it as it stands, and in
    either case the frame that follows is completed. *)
Theorem flag_resynchronises (s : Serial) (body : list byte) :
  carried body ->
  completed (snd (rx_bytes s (HDLC_FLAG :: frame body))) =
    (if is_receiving s then [receive_buffer s ++ [HDLC_FLAG]] else [])
    ++ [frame body].
Proof.
  intros Hbody. rewrite rx_bytes_cons. cbn [snd].
  rewrite completed_app.
  destruct (is_receiving s) eqn:Hr.
  - rewrite rx_loop_body_closing by exact Hr.
    rewrite rx_bytes_frame by (apply frame_done_idle || exact Hbody).
    now rewrite !frame_done_completed.
  - rewrite rx_loop_body_skip_sync by auto. cbn [fst snd completed app].
    rewrite rx_bytes_frame by (reflexivity || exact Hbody).
    now rewrite frame_done_completed.
Qed.

(** [X3] Two frames that share one flag ([FLAG b1 FLAG b2 FLAG]) are not
    both received: the first is completed and the bytes of the second are
    dropped, because the previous byte is forgotten when a frame ends.  The
    last flag is then the previous byte of an idle synchroniser. *)
Theorem shared_flag_drops_second_frame (s : Serial) (b1 b2 : list byte) :
  idle s -> carried b1 -> carried b2 ->
  completed (snd (rx_bytes s (frame b1 ++ b2 ++ [HDLC_FLAG]))) = [frame b1] /\
  is_receiving (fst (rx_bytes s (frame b1 ++ b2 ++ [HDLC_FLAG]))) = false /\
  last_rx_byte (fst (rx_bytes s (frame b1 ++ b2 ++ [HDLC_FLAG])))
    = Some HDLC_FLAG.
Proof.
  intros Hidle Hb1 [_ Hb2].
  rewrite rx_bytes_app, (rx_bytes_frame s b1 Hidle Hb1).
  rewrite rx_bytes_app.
  destruct (rx_bytes_unsynced b2 _ (frame_done_idle s (frame b1)) Hb2)
    as [[Hr Hl] Htr].
  rewrite Htr. cbn [fst snd app].
  rewrite rx_bytes_cons, rx_loop_body_skip_sync by auto.
  cbn [rx_bytes fst snd]. rewrite !app_nil_r, frame_done_completed.
  now repeat split.
Qed.

(** [X4] Frames that follow one another, each with its own two flags, are
    all completed, in order, and the synchroniser is idle after them. *)
Theorem frames_in_a_row (bodies : list (list byte)) (s : Serial) :
  idle s -> Forall carried bodies ->
  completed (snd (rx_bytes s (concat (map frame bodies))))
    = map frame bodies /\
  is_receiving (fst (rx_bytes s (concat (map frame bodies)))) = false.
Proof.
  revert s. induction bodies as [|body bodies IH]; intros s Hidle Hall.
  - now split.
  - inversion Hall as [|? ? Hbody Hbodies]; subst.
    cbn [map concat]. rewrite rx_bytes_app, (rx_bytes_frame s body Hidle Hbody).
    destruct (frame_done_idle s (frame body)) as [Hidle1 _].
    destruct (IH _ Hidle1 Hbodies) as [Hc Hr].
    cbn [fst snd]. rewrite completed_app, frame_done_completed, Hc.
    now split.
Qed.

(** *** Counting and the inbox, for any bytes *)

Lemma notified_app (t1 t2 : list call) :
  notified (t1 ++ t2) = (notified t1 + notified t2)%nat.
Proof.
  induction t1 as [|c t1 IH]; [reflexivity|].
  destruct c; cbn [app notified]; now rewrite IH.
Qed.

Lemma written_app (t1 t2 : list call) :
  written (t1 ++ t2) = written t1 ++ written t2.
Proof.
  induction t1 as [|c t1 IH]; [reflexivity|].
  destruct c; cbn [app written]; now rewrite IH.
Qed.

Lemma accepted_app (r1 r2 : list (list byte)) :
  accepted (r1 ++ r2) = (accepted r1 + accepted r2)%nat.
Proof. unfold accepted. now rewrite filter_app, length_app. Qed.

Lemma inbox_after_app (r1 r2 : list (list byte)) (m0 : list byte) :
  inbox_after (r1 ++ r2) m0 = inbox_after r2 (inbox_after r1 m0).
Proof. unfold inbox_after. now rewrite fold_left_app. Qed.

Lemma rx_loop_body_accounted (s : Serial) (b : byte) :
  rx_accounted s (fst (rx_loop_body s b)) (snd (rx_loop_body s b)).
Proof.
  destruct (rx_loop_body_branch s b)
    as [(Hr & Hl & Hb) | [(Hr & Hb) | [(Hr & Hb) | (Hr & Hb)]]].
  - rewrite rx_loop_body_start_sync by assumption.
    unfold rx_accounted. cbn. repeat split; lia.
  - rewrite rx_loop_body_middle_sync by assumption.
    unfold rx_accounted. cbn. repeat split; lia.
  - subst b. rewrite rx_loop_body_closing by assumption.
    unfold rx_accounted, frame_done, accepted, inbox_after, delivered.
    destruct (dehdlcify (receive_buffer s ++ [HDLC_FLAG])) as [m|] eqn:Hd;
      cbn; rewrite Hd; cbn; repeat split; lia.
  - rewrite rx_loop_body_skip_sync by assumption.
    unfold rx_accounted. cbn. repeat split; lia.
Qed.

Lemma rx_bytes_accounted (bs : list byte) (s : Serial) :
  rx_accounted s (fst (rx_bytes s bs)) (snd (rx_bytes s bs)).
Proof.
  revert s. induction bs as [|b bs IH]; intros s.
  - unfold rx_accounted. cbn. repeat split; lia.
  - rewrite rx_bytes_cons. cbn [fst snd].
    pose proof (rx_loop_body_accounted s b) as H1.
    pose proof (IH (fst (rx_loop_body s b))) as H2.
    unfold rx_accounted in *.
    rewrite completed_app, notified_app, written_app, length_app,
      accepted_app, inbox_after_app.
    destruct H1 as (A1 & A2 & A3 & A4 & A5 & A6 & A7 & A8 & A9 & A10 & A11).
    destruct H2 as (B1 & B2 & B3 & B4 & B5 & B6 & B7 & B8 & B9 & B10 & B11).
    rewrite A5, B5, B6, A6.
    repeat split; try reflexivity; try congruence; lia.
Qed.

(** [X5] Whatever bytes the loop processes, [rx_total_frames] grows by the
    number of raw frames handed to the codec, [rx_good_frames] by the
    number of notifications, which is the number of frames the codec
    accepts, and [rx_bad_frames] by the rest; the loop never writes to the
    port and leaves the transmit counters and the stop event alone. *)
Theorem rx_counters_count_frames (s : Serial) (bs : list byte) :
  let s' := fst (rx_bytes s bs) in
  let tr := snd (rx_bytes s bs) in
  rx_total_frames s' = rx_total_frames s + Z.of_nat (length (completed tr)) /\
  rx_good_frames s' = rx_good_frames s + Z.of_nat (notified tr) /\
  rx_bad_frames s' =
    rx_bad_frames s + Z.of_nat (length (completed tr))
    - Z.of_nat (notified tr) /\
  notified tr = accepted (completed tr) /\
  written tr = [] /\
  tx_total_frames s' = tx_total_frames s /\
  tx_good_frames s' = tx_good_frames s /\
  tx_bad_frames s' = tx_bad_frames s /\
  stop_event s' = stop_event s.
Proof.
  intros s' tr. subst s' tr.
  destruct (rx_bytes_accounted bs s)
    as (A1 & A2 & A3 & A4 & A5 & A6 & A7 & A8 & A9 & A10 & A11).
  now repeat split.
Qed.

(** [X6] After any bytes the inbox holds what the last completed raw frame
    left there: its payload if the codec accepted it, nothing if it did
    not, and what it held before if no frame was completed.  So [receive]
    returns the payload of the last completed frame only. *)
Theorem inbox_holds_last_frame (s : Serial) (bs : list byte) :
  receive_message (fst (rx_bytes s bs))
    = inbox_after (completed (snd (rx_bytes s bs))) (receive_message s) /\
  fst (snd (receive (fst (rx_bytes s bs))))
    = match rev (completed (snd (rx_bytes s bs))) with
      | [] => receive_message s
      | raw :: _ => delivered raw
      end.
Proof.
  destruct (rx_bytes_accounted bs s)
    as (A1 & A2 & A3 & A4 & A5 & A6 & A7 & A8 & A9 & A10 & A11).
  split; [exact A6|].
  rewrite receive_message_returned, A6.
  destruct (completed (snd (rx_bytes s bs))) as [|r rs] using rev_ind.
  - reflexivity.
  - rewrite rev_app_distr, inbox_after_app. reflexivity.
Qed.

(** [X7] How the port cuts the byte stream into reads does not matter:
    while the stop event is not set, one iteration of the loop on [a ++ b]
    leaves the state, and makes the calls, of an iteration on [a] followed
    by an iteration on [b]. *)
Theorem run_iteration_chunks (s : Serial) (a b : list byte) :
  stop_event s = false ->
  run_iteration s (Some (a ++ b)) =
    (fst (run_iteration (fst (run_iteration s (Some a))) (Some b)),
     snd (run_iteration s (Some a))
     ++ snd (run_iteration (fst (run_iteration s (Some a))) (Some b))).
Proof.
  intros Hstop.
  destruct (rx_bytes_accounted a s)
    as (A1 & A2 & A3 & A4 & A5 & A6 & A7 & A8 & A9 & A10 & A11).
  unfold run_iteration. rewrite Hstop, A11, Hstop. apply rx_bytes_app.
Qed.

(** *** [receive] and [transmit] *)

(** [X8] [receive] takes the message: a second [receive] with no frame in
    between returns the empty message with length -1.  The length it
    returns is -1 exactly when nothing is pending and otherwise the
    number of bytes of the message, at least 1: it is never 0.  The six
    counters are not changed. *)
Theorem receive_takes (s : Serial) :
  snd (receive (fst (receive s))) = ([], -1) /\
  (snd (snd (receive s)) = -1 <-> receive_message s = []) /\
  (receive_message s <> [] ->
   snd (receive s) = (receive_message s,
                      Z.of_nat (length (receive_message s))) /\
   1 <= snd (snd (receive s))) /\
  snd (snd (receive s)) <> 0 /\
  get_statistics (fst (receive s)) = get_statistics s.
Proof.
  rewrite receive_state. unfold receive.
  destruct (receive_message s) as [|b m] eqn:Hm; cbn [fst snd].
  - repeat split; try reflexivity; try discriminate; congruence.
  - repeat split; try reflexivity; try discriminate; cbn [length]; lia.
Qed.

Lemma rx_loop_body_sync_alike (s1 s2 : Serial) (b : byte) :
  sync_alike s1 s2 ->
  sync_alike (fst (rx_loop_body s1 b)) (fst (rx_loop_body s2 b)) /\
  snd (rx_loop_body s1 b) = snd (rx_loop_body s2 b).
Proof.
  intros (Hr & Hbuf & Hl).
  destruct (rx_loop_body_branch s1 b)
    as [(Hr1 & Hl1 & Hb) | [(Hr1 & Hb) | [(Hr1 & Hb) | (Hr1 & Hb)]]].
  - rewrite (rx_loop_body_start_sync s1 b) by assumption.
    rewrite (rx_loop_body_start_sync s2 b) by congruence.
    now repeat split.
  - rewrite (rx_loop_body_middle_sync s1 b) by assumption.
    rewrite (rx_loop_body_middle_sync s2 b) by congruence.
    unfold sync_alike. cbn. rewrite Hbuf. now repeat split.
  - subst b.
    rewrite (rx_loop_body_closing s1) by assumption.
    rewrite (rx_loop_body_closing s2) by congruence.
    rewrite Hbuf. unfold frame_done.
    now destruct (dehdlcify (receive_buffer s2 ++ [HDLC_FLAG])).
  - rewrite (rx_loop_body_skip_sync s1 b) by assumption.
    rewrite (rx_loop_body_skip_sync s2 b)
      by first [congruence | destruct Hb; [left; congruence | now right]].
    unfold sync_alike. cbn. now repeat split.
Qed.

Lemma rx_bytes_sync_alike (bs : list byte) (s1 s2 : Serial) :
  sync_alike s1 s2 ->
  sync_alike (fst (rx_bytes s1 bs)) (fst (rx_bytes s2 bs)) /\
  snd (rx_bytes s1 bs) = snd (rx_bytes s2 bs).
Proof.
  revert s1 s2. induction bs as [|b bs IH]; intros s1 s2 H; [now split|].
  rewrite !rx_bytes_cons. cbn [fst snd].
  destruct (rx_loop_body_sync_alike s1 s2 b H) as [H1 Ht1].
  destruct (IH _ _ H1) as [H2 Ht2].
  split; [exact H2|]. now rewrite Ht1, Ht2.
Qed.

Lemma exec_op_sync_alike (s : Serial) (o : op) :
  is_run o = false -> sync_alike s (exec_op s o).
Proof.
  intros Ho. destruct o as [rd| | |message write_ok|]; cbn [exec_op].
  - discriminate Ho.
  - now repeat split.
  - rewrite receive_state. now repeat split.
  - unfold transmit.
    destruct (hdlcify message) as [buf|]; [destruct write_ok|];
      now repeat split.
  - now repeat split.
Qed.

Lemma exec_op_stop_event (s : Serial) (o : op) :
  is_run o = false -> is_stopping o = false ->
  stop_event (exec_op s o) = stop_event s.
Proof.
  intros Hrun Hstop. destruct o as [rd| | |message write_ok|]; cbn [exec_op].
  - discriminate Hrun.
  - discriminate Hstop.
  - now rewrite receive_state.
  - unfold transmit.
    destruct (hdlcify message); [destruct write_ok|]; reflexivity.
  - reflexivity.
Qed.

(** [X9] The calls the loop makes (the frames it completes, the
    notifications) depend on the stop event and the synchroniser's
    attributes only.  A [receive], [transmit] or [clear_statistics]
    call leaves these alone, so made between two iterations of the loop it
    does not change what the next iteration does with what the port
    delivers, not even for a frame half assembled.  ([stop] is not among
    them: after it the loop reads nothing more.) *)
Theorem calls_do_not_disturb_reception
  (s : Serial) (o : op) (rd : option (list byte)) :
  is_run o = false -> is_stopping o = false ->
  snd (run_iteration (exec_op s o) rd) = snd (run_iteration s rd) /\
  stop_event (exec_op s o) = stop_event s /\
  is_receiving (exec_op s o) = is_receiving s /\
  receive_buffer (exec_op s o) = receive_buffer s /\
  last_rx_byte (exec_op s o) = last_rx_byte s.
Proof.
  intros Hrun Hstop.
  pose proof (exec_op_sync_alike s o Hrun) as H.
  pose proof (exec_op_stop_event s o Hrun Hstop) as He.
  split.
  - unfold run_iteration. rewrite He.
    destruct (stop_event s); [reflexivity|].
    destruct rd as [bs|]; [|reflexivity].
    now destruct (rx_bytes_sync_alike bs _ _ H) as [_ Ht].
  - destruct H as (Hr & Hb & Hl). now repeat split.
Qed.

(** [X10] When [hdlcify] returns a buffer, [transmit] keeps it in
    [transmit_buffer] and hands it to the port's [write], once.  If the
    write returns, [tx_good_frames] is one higher and [transmit] returns;
    if it raises, [tx_bad_frames] is one higher and [transmit] raises.
    [tx_total_frames] is one higher either way, and the receive side
    (counters, inbox) is not touched. *)
Theorem transmit_encoded
  (s : Serial) (message buf : list byte) (write_ok : bool) :
  hdlcify message = Some buf ->
  let '(s', tr, result) := transmit s message write_ok in
  tr = [Write buf] /\
  transmit_buffer s' = buf /\
  tx_total_frames s' = tx_total_frames s + 1 /\
  tx_good_frames s' = tx_good_frames s + (if write_ok then 1 else 0) /\
  tx_bad_frames s' = tx_bad_frames s + (if write_ok then 0 else 1) /\
  result = (if write_ok then Returned else Raised) /\
  rx_total_frames s' = rx_total_frames s /\
  rx_good_frames s' = rx_good_frames s /\
  rx_bad_frames s' = rx_bad_frames s /\
  receive_message s' = receive_message s.
Proof.
  intros Henc. unfold transmit. rewrite Henc.
  destruct write_ok; cbn; repeat split; lia.
Qed.

(** *** [transmit] beside the loop *)

Lemma rx_loop_body_transmit
  (s : Serial) (message : list byte) (write_ok : bool) (b : byte) :
  rx_loop_body (fst (fst (transmit s message write_ok))) b =
    (fst (fst (transmit (fst (rx_loop_body s b)) message write_ok)),
     snd (rx_loop_body s b)).
Proof.
  destruct (rx_loop_body_branch s b)
    as [(Hr & Hl & Hb) | [(Hr & Hb) | [(Hr & Hb) | (Hr & Hb)]]].
  - rewrite (rx_loop_body_start_sync s b) by assumption.
    rewrite rx_loop_body_start_sync;
      [| unfold transmit;
         destruct (hdlcify message); [destruct write_ok|]; assumption ..].
    unfold transmit.
    destruct (hdlcify message); [destruct write_ok|]; reflexivity.
  - rewrite (rx_loop_body_middle_sync s b) by assumption.
    rewrite rx_loop_body_middle_sync;
      [| unfold transmit;
         destruct (hdlcify message); [destruct write_ok|]; assumption ..].
    unfold transmit.
    destruct (hdlcify message); [destruct write_ok|]; reflexivity.
  - subst b. rewrite (rx_loop_body_closing s) by assumption.
    rewrite rx_loop_body_closing;
      [| unfold transmit;
         destruct (hdlcify message); [destruct write_ok|]; assumption].
    unfold transmit, frame_done.
    destruct (hdlcify message); [destruct write_ok|]; cbn;
      destruct (dehdlcify (receive_buffer s ++ [HDLC_FLAG])); reflexivity.
  - rewrite (rx_loop_body_skip_sync s b) by assumption.
    rewrite rx_loop_body_skip_sync;
      [| unfold transmit;
         destruct (hdlcify message); [destruct write_ok|]; assumption ..].
    unfold transmit.
    destruct (hdlcify message); [destruct write_ok|]; reflexivity.
Qed.

Lemma rx_bytes_transmit
  (bs : list byte) (s : Serial) (message : list byte) (write_ok : bool) :
  rx_bytes (fst (fst (transmit s message write_ok))) bs =
    (fst (fst (transmit (fst (rx_bytes s bs)) message write_ok)),
     snd (rx_bytes s bs)).
Proof.
  revert s. induction bs as [|b bs IH]; intros s; [reflexivity|].
  rewrite !rx_bytes_cons, rx_loop_body_transmit. cbn [fst snd].
  now rewrite IH.
Qed.

Lemma transmit_calls
  (s1 s2 : Serial) (message : list byte) (write_ok : bool) :
  snd (fst (transmit s1 message write_ok))
    = snd (fst (transmit s2 message write_ok)) /\
  snd (transmit s1 message write_ok) = snd (transmit s2 message write_ok).
Proof.
  unfold transmit.
  destruct (hdlcify message); [destruct write_ok|]; now split.
Qed.

(** [X11] [transmit] and the loop do not interfere: calling [transmit]
    before the loop processes some bytes or after it has done so leaves
    the same state, writes the same buffer to the port and ends the same
    way, and the loop completes the same frames. *)
Theorem transmit_commutes_with_reception
  (s : Serial) (message : list byte) (write_ok : bool) (bs : list byte) :
  fst (rx_bytes (fst (fst (transmit s message write_ok))) bs)
    = fst (fst (transmit (fst (rx_bytes s bs)) message write_ok)) /\
  snd (rx_bytes (fst (fst (transmit s message write_ok))) bs)
    = snd (rx_bytes s bs) /\
  snd (fst (transmit (fst (rx_bytes s bs)) message write_ok))
    = snd (fst (transmit s message write_ok)) /\
  snd (transmit (fst (rx_bytes s bs)) message write_ok)
    = snd (transmit s message write_ok).
Proof.
  rewrite rx_bytes_transmit. cbn [fst snd].
  destruct (transmit_calls (fst (rx_bytes s bs)) s message write_ok)
    as [Hc Ho].
  now repeat split.
Qed.

(** *** The stop event *)

Lemma exec_op_stopped (s : Serial) (o : op) :
  stop_event s = true \/ is_stopping o = true ->
  stop_event (exec_op s o) = true.
Proof.
  intros H. destruct o as [rd| | |message write_ok|]; cbn [exec_op].
  - unfold run_iteration. destruct (stop_event s) eqn:Hs; [exact Hs|].
    destruct rd as [bs|]; [|reflexivity].
    destruct H as [H|H]; discriminate H.
  - reflexivity.
  - rewrite receive_state. destruct H as [H|H]; [exact H | discriminate H].
  - unfold transmit.
    destruct (hdlcify message); [destruct write_ok|];
      (destruct H as [H|H]; [exact H | discriminate H]).
  - destruct H as [H|H]; [exact H | discriminate H].
Qed.

Lemma exec_stopped (ops : list op) (s : Serial) :
  stop_event s = true \/ existsb is_stopping ops = true ->
  stop_event (exec s ops) = true.
Proof.
  revert s. induction ops as [|o ops IH]; intros s H.
  - destruct H as [H|H]; [exact H | discriminate H].
  - cbn [exec fold_left]. apply IH.
    destruct H as [H|H].
    + left. apply exec_op_stopped. now left.
    + cbn [existsb] in H. apply orb_prop in H. destruct H as [H|H].
      * left. apply exec_op_stopped. now right.
      * now right.
Qed.

(** [X12] The stop event is set by [stop] and by a read on which the port
    raises, and nothing clears it.  Once it is set, after whatever
    operations, an iteration of the loop changes nothing and calls no
    collaborator, whatever the port would deliver. *)
Theorem stopped_loop_stays_stopped
  (s : Serial) (ops : list op) (rd : option (list byte)) :
  stop_event s = true \/ existsb is_stopping ops = true ->
  stop_event (exec s ops) = true /\
  run_iteration (exec s ops) rd = (exec s ops, []).
Proof.
  intros H. pose proof (exec_stopped ops s H) as Hs.
  split; [exact Hs|]. unfold run_iteration. now rewrite Hs.
Qed.

(** *** The counters over time *)

Lemma accepted_le (raws : list (list byte)) :
  (accepted raws <= length raws)%nat.
Proof. unfold accepted. apply filter_length_le. Qed.

Lemma counters_le_refl (s : Serial) : counters_le s s.
Proof. unfold counters_le. lia. Qed.

Lemma counters_le_trans (s1 s2 s3 : Serial) :
  counters_le s1 s2 -> counters_le s2 s3 -> counters_le s1 s3.
Proof. unfold counters_le. lia. Qed.

Lemma rx_bytes_counters_le (s : Serial) (bs : list byte) :
  counters_le s (fst (rx_bytes s bs)).
Proof.
  destruct (rx_bytes_accounted bs s)
    as (A1 & A2 & A3 & A4 & A5 & A6 & A7 & A8 & A9 & A10 & A11).
  pose proof (accepted_le (completed (snd (rx_bytes s bs)))) as Hle.
  rewrite <- A4 in Hle. unfold counters_le. lia.
Qed.

Lemma exec_op_counters_le (s : Serial) (o : op) :
  is_clear o = false -> counters_le s (exec_op s o).
Proof.
  intros Ho. destruct o as [rd| | |message write_ok|]; cbn [exec_op].
  - unfold run_iteration. destruct (stop_event s).
    + apply counters_le_refl.
    + destruct rd as [bs|]; [apply rx_bytes_counters_le|].
      unfold counters_le. cbn. lia.
  - unfold counters_le. cbn. lia.
  - rewrite receive_state. unfold counters_le. cbn. lia.
  - unfold transmit, counters_le.
    destruct (hdlcify message); [destruct write_ok|]; cbn; lia.
  - discriminate Ho.
Qed.

(** [X13] As long as [clear_statistics] is not called, no counter ever
    decreases, whatever the loop, [receive], [transmit] and [stop] do. *)
Theorem counters_never_decrease (ops : list op) (s : Serial) :
  forallb (fun o => negb (is_clear o)) ops = true ->
  counters_le s (exec s ops).
Proof.
  revert s. induction ops as [|o ops IH]; intros s Hops.
  - apply counters_le_refl.
  - cbn [forallb] in Hops. apply andb_prop in Hops.
    destruct Hops as [Ho Hops]. cbn [exec fold_left].
    apply (counters_le_trans s (exec_op s o)).
    + apply exec_op_counters_le. now destruct (is_clear o).
    + now apply IH.
Qed.

(** *** From [transmit] on one object to [receive] on another *)

(** [X15] If the codec turns a message into a whole frame (flag, one or
    more bytes other than the flag, flag) that it decodes back to the
    message, then what [transmit] writes to the port, once the loop of an
    object with an idle synchroniser has processed it, is what [receive]
    returns there: the message, with its length if it is not empty. *)
Theorem loopback
  (sender receiver : Serial) (message body : list byte) :
  hdlcify message = Some (frame body) ->
  carried body ->
  dehdlcify (frame body) = Some message ->
  idle receiver ->
  written (snd (fst (transmit sender message true))) = [frame body] /\
  snd (transmit sender message true) = Returned /\
  notified (snd (rx_bytes receiver (frame body))) = 1%nat /\
  fst (snd (receive (fst (rx_bytes receiver (frame body))))) = message /\
  (message <> [] ->
   snd (receive (fst (rx_bytes receiver (frame body))))
     = (message, Z.of_nat (length message))).
Proof.
  intros Henc Hbody Hdec Hidle.
  rewrite (rx_bytes_frame receiver body Hidle Hbody).
  unfold transmit, frame_done. rewrite Henc, Hdec. cbn [fst snd].
  do 3 (split; [reflexivity|]).
  split; [apply receive_message_returned|].
  intros Hne. unfold receive. cbn. now destruct message.
Qed.

(** *** Frames cut short, and the shape of completed frames *)

(** [X16] A frame whose closing flag has not arrived completes nothing and
    is kept: after the flag, one or more bytes other than the flag, and any
    further such bytes, in whatever reads they come, the loop has called no
    collaborator, is still receiving, and the buffer holds the flag and
    all these bytes.  Nothing bounds its length and nothing but a flag
    ends it. *)
Theorem open_frame_is_buffered (s : Serial) (body more : list byte) :
  idle s -> carried body -> Forall (fun b => b <> HDLC_FLAG) more ->
  snd (rx_bytes s (HDLC_FLAG :: body ++ more)) = [] /\
  is_receiving (fst (rx_bytes s (HDLC_FLAG :: body ++ more))) = true /\
  receive_buffer (fst (rx_bytes s (HDLC_FLAG :: body ++ more)))
    = HDLC_FLAG :: body ++ more.
Proof.
  intros Hidle [Hne Hbody] Hmore.
  destruct body as [|b0 rest]; [now elim Hne|].
  inversion Hbody as [|? ? Hb0 Hrest]; subst.
  cbn [app].
  rewrite rx_bytes_cons, rx_loop_body_skip_sync by auto.
  cbn [fst snd app].
  rewrite rx_bytes_cons, rx_loop_body_start_sync
    by first [reflexivity | exact is_flag_flag | assumption].
  cbn [fst snd app].
  assert (Hall : Forall (fun b => b <> HDLC_FLAG) (rest ++ more))
    by (apply Forall_app; now split).
  destruct (rx_bytes_middle_sync (rest ++ more)
              (with_sync (with_sync s false (receive_buffer s)
                            (Some HDLC_FLAG) (Some HDLC_FLAG))
                 true [HDLC_FLAG; b0] (Some b0) (Some b0))
              eq_refl Hall) as (x & l & Heq).
  rewrite Heq. now repeat split.
Qed.

Lemma rx_loop_body_whole_frames (s : Serial) (b : byte) :
  assembling s ->
  Forall (fun raw => exists body, raw = frame body /\ carried body)
    (completed (snd (rx_loop_body s b))).
Proof.
  intros Hinv.
  destruct (rx_loop_body_branch s b)
    as [(Hr & Hl & Hb) | [(Hr & Hb) | [(Hr & Hb) | (Hr & Hb)]]].
  - rewrite rx_loop_body_start_sync by assumption. constructor.
  - rewrite rx_loop_body_middle_sync by assumption. constructor.
  - subst b. rewrite rx_loop_body_closing by assumption.
    rewrite frame_done_completed.
    destruct (Hinv Hr) as (body & Hbuf & Hne & Hall).
    constructor; [|constructor]. exists body. rewrite Hbuf.
    now repeat split.
  - rewrite rx_loop_body_skip_sync by assumption. constructor.
Qed.

Lemma rx_bytes_whole_frames (bs : list byte) (s : Serial) :
  assembling s ->
  Forall (fun raw => exists body, raw = frame body /\ carried body)
    (completed (snd (rx_bytes s bs))).
Proof.
  revert s. induction bs as [|b bs IH]; intros s Hinv; [constructor|].
  rewrite rx_bytes_cons. cbn [snd]. rewrite completed_app.
  apply Forall_app. split.
  - now apply rx_loop_body_whole_frames.
  - apply IH. now apply rx_loop_body_assembling.
Qed.

(** [X17] Every raw frame the loop hands to the codec is a flag, one or
    more bytes other than the flag, and a flag: the codec is never called
    on fewer than three bytes, whatever bytes arrive and whatever
    operations ran before. *)
Theorem completed_frames_are_whole (ops : list op) (bs : list byte) :
  Forall (fun raw => (exists body, raw = frame body /\ carried body) /\
                     (3 <= length raw)%nat)
    (completed (snd (rx_bytes (exec init ops) bs))).
Proof.
  pose proof (rx_bytes_whole_frames bs (exec init ops)
                (exec_assembling ops init assembling_init)) as H.
  rewrite Forall_forall in *. intros raw Hin.
  destruct (H raw Hin) as (body & -> & Hne & Hall).
  split; [exists body; now repeat split|].
  unfold frame. cbn [length]. rewrite length_app. cbn [length].
  destruct body; [now elim Hne | cbn [length]; lia].
Qed.

(** *** Calls of other threads inside the two windows *)

(** The cut pieces, run one after the other, are the whole. *)
Lemma end_of_frame_split (b : byte) (s : Serial) :
  end_of_frame b s = end_of_frame_decoded (end_of_frame_counted b s).
Proof. reflexivity. Qed.

Lemma rx_loop_body_split (s : Serial) (b : byte) :
  rx_loop_body s b =
    (if snd (rx_loop_body_begin s b)
     then rx_loop_body_finish (fst (rx_loop_body_begin s b))
     else (fst (rx_loop_body_begin s b), [])).
Proof.
  unfold rx_loop_body, rx_loop_body_begin, rx_loop_body_finish.
  cbn [is_receiving last_rx_byte rx_byte set_rx_byte].
  destruct (is_receiving s), (is_flag (last_rx_byte s)), (is_flag (Some b));
    reflexivity.
Qed.

Lemma transmit_split (s : Serial) (message : list byte) (write_ok : bool) :
  transmit s message write_ok
    = transmit_leave (transmit_enter s) message write_ok.
Proof. reflexivity. Qed.

Lemma rx_loop_body_begin_counters (s : Serial) (b : byte) :
  tx_total_frames (fst (rx_loop_body_begin s b)) = tx_total_frames s /\
  tx_good_frames (fst (rx_loop_body_begin s b)) = tx_good_frames s /\
  tx_bad_frames (fst (rx_loop_body_begin s b)) = tx_bad_frames s /\
  rx_good_frames (fst (rx_loop_body_begin s b)) = rx_good_frames s /\
  rx_bad_frames (fst (rx_loop_body_begin s b)) = rx_bad_frames s /\
  rx_total_frames (fst (rx_loop_body_begin s b))
    = rx_total_frames s + (if snd (rx_loop_body_begin s b) then 1 else 0).
Proof.
  unfold rx_loop_body_begin.
  cbn [is_receiving last_rx_byte rx_byte set_rx_byte].
  destruct (is_receiving s), (is_flag (last_rx_byte s)), (is_flag (Some b));
    cbn; repeat split; lia.
Qed.

Lemma rx_loop_body_finish_counters (s : Serial) :
  tx_total_frames (fst (rx_loop_body_finish s)) = tx_total_frames s /\
  tx_good_frames (fst (rx_loop_body_finish s)) = tx_good_frames s /\
  tx_bad_frames (fst (rx_loop_body_finish s)) = tx_bad_frames s /\
  rx_total_frames (fst (rx_loop_body_finish s)) = rx_total_frames s /\
  rx_good_frames s <= rx_good_frames (fst (rx_loop_body_finish s)) /\
  rx_bad_frames s <= rx_bad_frames (fst (rx_loop_body_finish s)) /\
  rx_good_frames (fst (rx_loop_body_finish s))
  + rx_bad_frames (fst (rx_loop_body_finish s))
    = rx_good_frames s + rx_bad_frames s + 1.
Proof.
  unfold rx_loop_body_finish, end_of_frame_decoded.
  destruct (dehdlcify (receive_buffer s)); cbn; repeat split; lia.
Qed.

Lemma transmit_leave_counters
  (s : Serial) (message : list byte) (write_ok : bool) :
  let s' := fst (fst (transmit_leave s message write_ok)) in
  tx_total_frames s' = tx_total_frames s /\
  tx_good_frames s <= tx_good_frames s' /\
  tx_bad_frames s <= tx_bad_frames s' /\
  tx_good_frames s' + tx_bad_frames s'
    = tx_good_frames s + tx_bad_frames s + 1 /\
  rx_total_frames s' = rx_total_frames s /\
  rx_good_frames s' = rx_good_frames s /\
  rx_bad_frames s' = rx_bad_frames s.
Proof.
  unfold transmit_leave.
  destruct (hdlcify message); [destruct write_ok|]; cbn; repeat split; lia.
Qed.

(** One event keeps the sums, unless it is a [clear_statistics] inside a
    window. *)
Lemma step_balanced (w w' : World) (e : event) :
  step w e = Some w' ->
  match e with CallClear => quiescent w | _ => true end = true ->
  balanced w -> balanced w'.
Proof.
  intros Hstep Hclear [Htx Hrx]. unfold balanced.
  destruct e as [b| |message|write_ok| | |]; cbn [step] in Hstep.
  - destruct (rx_window w) eqn:Hw; [discriminate Hstep|].
    pose proof (rx_loop_body_begin_counters (object w) b) as Hc.
    destruct (rx_loop_body_begin (object w) b) as [s opened].
    injection Hstep as <-. cbn [fst snd object rx_window tx_window] in *.
    lia.
  - destruct (rx_window w) eqn:Hw; [|discriminate Hstep].
    pose proof (rx_loop_body_finish_counters (object w)) as Hc.
    injection Hstep as <-. cbn [fst snd object rx_window tx_window] in *.
    lia.
  - destruct (tx_window w) eqn:Hw; [discriminate Hstep|].
    injection Hstep as <-. cbn. lia.
  - destruct (tx_window w) as [message|] eqn:Hw; [|discriminate Hstep].
    pose proof (transmit_leave_counters (object w) message write_ok) as Hc.
    injection Hstep as <-. cbn [fst snd object rx_window tx_window] in *.
    lia.
  - injection Hstep as <-. rewrite receive_state. cbn. lia.
  - injection Hstep as <-. unfold quiescent in Hclear.
    apply andb_prop in Hclear. destruct Hclear as [H1 H2].
    destruct (rx_window w); [discriminate H1|].
    destruct (tx_window w); [discriminate H2|]. cbn. lia.
  - injection Hstep as <-. cbn. lia.
Qed.

Lemma run_events_balanced (evs : list event) (w w' : World) :
  run_events w evs = Some w' ->
  quiet_clears w evs = true ->
  balanced w -> balanced w'.
Proof.
  revert w. induction evs as [|e evs IH]; intros w Hrun Hquiet Hbal.
  - injection Hrun as <-. exact Hbal.
  - cbn [run_events quiet_clears] in Hrun, Hquiet.
    apply andb_prop in Hquiet. destruct Hquiet as [He Hquiet].
    destruct (step w e) as [w1|] eqn:Hstep; [|discriminate Hrun].
    apply (IH w1 Hrun Hquiet).
    now apply (step_balanced w w1 e).
Qed.

Lemma balanced_start : balanced start.
Proof. now split. Qed.


Lemma step_counters_nonneg (w w' : World) (e : event) :
  step w e = Some w' ->
  counters_nonneg (object w) -> counters_nonneg (object w').
Proof.
  intros Hstep Hn. unfold counters_nonneg in *.
  destruct e as [b| |message|write_ok| | |]; cbn [step] in Hstep.
  - destruct (rx_window w); [discriminate Hstep|].
    pose proof (rx_loop_body_begin_counters (object w) b) as Hc.
    destruct (rx_loop_body_begin (object w) b) as [s opened].
    injection Hstep as <-. cbn [fst snd object] in *.
    destruct opened; lia.
  - destruct (rx_window w); [|discriminate Hstep].
    pose proof (rx_loop_body_finish_counters (object w)) as Hc.
    injection Hstep as <-. cbn [fst snd object] in *. lia.
  - destruct (tx_window w); [discriminate Hstep|].
    injection Hstep as <-. cbn. lia.
  - destruct (tx_window w) as [message|]; [|discriminate Hstep].
    pose proof (transmit_leave_counters (object w) message write_ok) as Hc.
    injection Hstep as <-. cbn [fst snd object] in *. lia.
  - injection Hstep as <-. rewrite receive_state. cbn. lia.
  - injection Hstep as <-. cbn. lia.
  - injection Hstep as <-. cbn. lia.
Qed.

Lemma run_events_counters_nonneg (evs : list event) (w w' : World) :
  run_events w evs = Some w' ->
  counters_nonneg (object w) -> counters_nonneg (object w').
Proof.
  revert w. induction evs as [|e evs IH]; intros w Hrun Hn.
  - injection Hrun as <-. exact Hn.
  - cbn [run_events] in Hrun.
    destruct (step w e) as [w1|] eqn:Hstep; [|discriminate Hrun].
    apply (IH w1 Hrun). now apply (step_counters_nonneg w w1 e).
Qed.

(** [X14] Whatever the threads do and in whatever order, no counter of an
    object is ever negative.  If moreover no [clear_statistics] call takes
    place while the loop or a [transmit] call stands between counting a
    frame in the total and counting it good or bad, the good and the bad
    frames of a direction are each at most its total. *)
Theorem counters_within_totals (evs : list event) (w : World) :
  run_events start evs = Some w ->
  counters_nonneg (object w) /\
  (quiet_clears start evs = true ->
   tx_good_frames (object w) <= tx_total_frames (object w) /\
   tx_bad_frames (object w) <= tx_total_frames (object w) /\
   rx_good_frames (object w) <= rx_total_frames (object w) /\
   rx_bad_frames (object w) <= rx_total_frames (object w)).
Proof.
  intros Hrun.
  assert (H0 : counters_nonneg (object start))
    by (unfold counters_nonneg; cbn; lia).
  pose proof (run_events_counters_nonneg evs start w Hrun H0) as Hn.
  split; [exact Hn|].
  intros Hquiet.
  destruct (run_events_balanced evs start w Hrun Hquiet balanced_start)
    as [Htx Hrx].
  unfold counters_nonneg in Hn.
  destruct (tx_window w), (rx_window w); lia.
Qed.

End Properties.

(** ** The statements on concrete inputs *)

#[local] Existing Instance Checksum.codec.

(* [H] is a statement instantiated at concrete arguments: its hypotheses
   are evaluated, then its conclusion, which closes the goal. *)
Ltac evaluate H :=
  cbv zeta in H;
  repeat (match type of H with
          | ?P -> _ =>
              let HP := fresh in
              assert (HP : P)
                by (vm_compute;
                    first [reflexivity | repeat constructor; discriminate]);
              specialize (H HP); clear HP
          end);
  vm_compute in H; vm_compute; exact H.

(** [C3] on the refused frame [7e 01 02 7e], followed by a stray byte. *)
Lemma decode_failure_witness :
  let s := Sample.fed [x7e; x01; x02] in
  let s1 := fst (rx_loop_body s x7e) in
  let tr := snd (rx_loop_body s x7e) in
  completed tr = [Sample.bad_frame] /\
  rx_total_frames s1 = 1 /\ rx_bad_frames s1 = 1 /\ rx_good_frames s1 = 0 /\
  notified (tr ++ snd (rx_bytes s1 [x03])) = O /\
  snd (receive (fst (rx_bytes s1 [x03]))) = ([], -1).
Proof.
  pose proof (decode_failure (Sample.fed [x7e; x01; x02]) [x03]) as H.
  evaluate H.
Defined.

(** [C4] fails on the code: [7e 05 05 7e] is decoded to [05] and left
    unread; the refused frame [7e 01 02 7e] follows; [receive] then returns
    the empty message with length -1 and not [05] with length 1. *)
Lemma decode_failure_keeps_frame_counterexample :
  let s1 := Sample.fed Sample.good_frame in
  let s2 := fst (rx_bytes s1 Sample.bad_frame) in
  snd (receive s1) = ([x05], 1) /\
  completed (snd (rx_bytes s1 Sample.bad_frame)) = [Sample.bad_frame] /\
  dehdlcify Sample.bad_frame = None /\
  snd (receive s2) = ([], -1) /\
  snd (receive s2) <> ([x05], 1).
Proof.
  vm_compute. repeat split. discriminate.
Qed.

(** [C4, as the code has it] on the same input. *)
Lemma decode_failure_empties_inbox_witness :
  let s0 := Sample.fed [x7e; x05; x05] in
  let s1 := fst (rx_loop_body s0 x7e) in
  let s2 := fst (rx_bytes s1 [x7e; x01; x02]) in
  let s3 := fst (rx_loop_body s2 x7e) in
  let s4 := fst (rx_bytes s3 [x03]) in
  receive_message s2 = [x05] /\
  receive_message s4 = [] /\
  snd (receive s4) = ([], -1).
Proof.
  pose proof (decode_failure_empties_inbox
                (Sample.fed [x7e; x05; x05]) [x7e; x01; x02] [x03] [x05])
    as H.
  evaluate H.
Defined.

(** [C5] on [7e 05 05 7e] followed by [7e 09 09 7e]. *)
Lemma inbox_overwrite_witness :
  let s0 := Sample.fed [x7e; x05; x05] in
  let s1 := fst (rx_loop_body s0 x7e) in
  let s2 := fst (rx_bytes s1 [x7e; x09; x09]) in
  let s3 := fst (rx_loop_body s2 x7e) in
  let s4 := fst (rx_bytes s3 [x03]) in
  receive_message s2 = [x05] /\
  fst (snd (receive s4)) = [x09] /\
  ([x05] <> [x09] -> fst (snd (receive s4)) <> [x05]) /\
  snd (snd (receive s4)) = 1.
Proof.
  pose proof (inbox_overwrite
                (Sample.fed [x7e; x05; x05]) [x7e; x09; x09] [x03]
                [x05] [x09])
    as H.
  evaluate H.
Defined.

(** [C6] on a payload that holds the flag, which the codec refuses. *)
Lemma transmit_encode_failure_witness :
  let '(s', tr, result) := transmit init [x7e; x02] true in
  tx_total_frames s' = 1 /\
  tx_bad_frames s' = 1 /\
  tx_good_frames s' = 0 /\
  written tr = [] /\
  result = Raised.
Proof.
  pose proof (transmit_encode_failure init [x7e; x02] true) as H.
  evaluate H.
Defined.

(** [C7] on three stray bytes and four flags. *)
Lemma no_frame_without_sync_witness :
  completed (snd (rx_bytes init [x7e; x7e; x7e; x7e])) = [] /\
  completed (snd (rx_bytes init [x01; x02; x03])) = [] /\
  completed (snd (rx_bytes init [x01; x02; x03; x7e; x7e; x7e; x7e])) = [] /\
  (is_flag (last_rx_byte init) = false ->
   completed (snd (rx_bytes init [x01; x02; x03])) = []).
Proof.
  pose proof (no_frame_without_sync init [x01; x02; x03] 4) as H.
  evaluate H.
Defined.

(** [C8] on the flag [0x7e]. *)
Lemma scenario_one_frame_witness :
  completed (snd (rx_bytes init [x7e; x01; x02; x7e]))
    = [[x7e; x01; x02; x7e]] /\
  rx_total_frames (fst (rx_bytes init [x7e; x01; x02; x7e])) = 1.
Proof.
  pose proof scenario_one_frame as H.
  evaluate H.
Defined.



(** [C10] on the frame [7e 00 7e], which decodes to the empty payload. *)
Lemma empty_payload_reads_as_nothing_witness :
  let s := Sample.fed [x7e; x00] in
  let s1 := fst (rx_loop_body s x7e) in
  let tr := snd (rx_loop_body s x7e) in
  rx_good_frames s1 = 1 /\
  notified tr = 1%nat /\
  snd (receive (fst (rx_bytes s1 []))) = ([], -1) /\
  snd (receive (fst (rx_bytes s1 []))) = snd (receive init).
Proof.
  pose proof (empty_payload_reads_as_nothing (Sample.fed [x7e; x00]) [])
    as H.
  evaluate H.
Defined.

(** ** Further statements on concrete inputs *)

(** [X1] on the frame [7e 05 05 7e] after a stray byte. *)
Lemma frame_detected_witness :
  let s := Sample.fed [x03] in
  let s' := fst (rx_bytes s Sample.good_frame) in
  let tr := snd (rx_bytes s Sample.good_frame) in
  completed tr = [Sample.good_frame] /\
  notified tr = 1%nat /\
  rx_total_frames s' = 1 /\
  receive_message s' = [x05] /\
  is_receiving s' = false /\
  receive_buffer s' = [] /\
  last_rx_byte s' = None.
Proof.
  pose proof (frame_detected (Sample.fed [x03]) [x05; x05]) as H.
  evaluate H.
Defined.

(** [X2] on a synchroniser that is assembling [7e 01 ...]. *)
Lemma flag_resynchronises_witness :
  completed (snd (rx_bytes (Sample.fed [x7e; x01])
                    (x7e :: Sample.good_frame)))
    = [[x7e; x01; x7e]; Sample.good_frame].
Proof.
  pose proof (flag_resynchronises (Sample.fed [x7e; x01]) [x05; x05]) as H.
  evaluate H.
Defined.

(** [X3] on [7e 05 05 7e 09 09 7e]. *)
Lemma shared_flag_drops_second_frame_witness :
  let bs := [x7e; x05; x05; x7e; x09; x09; x7e] in
  completed (snd (rx_bytes init bs)) = [Sample.good_frame] /\
  is_receiving (fst (rx_bytes init bs)) = false /\
  last_rx_byte (fst (rx_bytes init bs)) = Some x7e.
Proof.
  pose proof (shared_flag_drops_second_frame init [x05; x05] [x09; x09])
    as H.
  evaluate H.
Defined.

(** [X4] on three frames, the second of which the codec refuses. *)
Lemma frames_in_a_row_witness :
  let bs := Sample.good_frame ++ Sample.bad_frame ++ [x7e; x00; x7e] in
  completed (snd (rx_bytes init bs))
    = [Sample.good_frame; Sample.bad_frame; [x7e; x00; x7e]] /\
  is_receiving (fst (rx_bytes init bs)) = false.
Proof.
  pose proof (frames_in_a_row [[x05; x05]; [x01; x02]; [x00]] init) as H.
  evaluate H.
Defined.

(** [X7] on the frame [7e 05 05 7e] cut in the middle. *)
Lemma run_iteration_chunks_witness :
  run_iteration init (Some ([x7e; x05] ++ [x05; x7e])) =
    (fst (run_iteration (fst (run_iteration init (Some [x7e; x05])))
            (Some [x05; x7e])),
     snd (run_iteration init (Some [x7e; x05]))
     ++ snd (run_iteration (fst (run_iteration init (Some [x7e; x05])))
               (Some [x05; x7e]))) /\
  completed (snd (run_iteration init (Some Sample.good_frame)))
    = [Sample.good_frame].
Proof.
  split; [|vm_compute; reflexivity].
  pose proof (run_iteration_chunks init [x7e; x05] [x05; x7e]) as H.
  evaluate H.
Defined.

(** [X9] on [clear_statistics] called while [7e 05 ...] is assembled. *)
Lemma calls_do_not_disturb_reception_witness :
  let s := Sample.fed [x7e; x05] in
  snd (run_iteration (exec_op s OpClear) (Some [x05; x7e]))
    = [Dehdlcify Sample.good_frame; Notify] /\
  snd (run_iteration (exec_op s OpClear) (Some [x05; x7e]))
    = snd (run_iteration s (Some [x05; x7e])) /\
  stop_event (exec_op s OpClear) = stop_event s /\
  is_receiving (exec_op s OpClear) = is_receiving s /\
  receive_buffer (exec_op s OpClear) = receive_buffer s /\
  last_rx_byte (exec_op s OpClear) = last_rx_byte s.
Proof.
  cbv zeta. split; [vm_compute; reflexivity|].
  pose proof (calls_do_not_disturb_reception
                (Sample.fed [x7e; x05]) OpClear (Some [x05; x7e])) as H.
  evaluate H.
Defined.

(** [X10] on the payload [01 02] and a port whose write raises. *)
Lemma transmit_encoded_witness :
  let '(s', tr, result) := transmit init [x01; x02] false in
  tr = [Write [x7e; x01; x02; x03; x7e]] /\
  transmit_buffer s' = [x7e; x01; x02; x03; x7e] /\
  tx_total_frames s' = 1 /\
  tx_good_frames s' = 0 /\
  tx_bad_frames s' = 1 /\
  result = Raised /\
  rx_total_frames s' = 0 /\
  rx_good_frames s' = 0 /\
  rx_bad_frames s' = 0 /\
  receive_message s' = [].
Proof.
  pose proof (transmit_encoded init [x01; x02] [x7e; x01; x02; x03; x7e]
                false) as H.
  evaluate H.
Defined.

(** [X12] on a read that raises, followed by a frame that is then never
    processed. *)
Lemma stopped_loop_stays_stopped_witness :
  let s := exec init [OpRun None; OpClear] in
  stop_event s = true /\
  run_iteration s (Some Sample.good_frame) = (s, []).
Proof.
  apply (stopped_loop_stays_stopped init [OpRun None; OpClear]
           (Some Sample.good_frame)).
  right. reflexivity.
Defined.

(** [X13] on a frame, a refused transmit, a receive and a stop. *)
Lemma counters_never_decrease_witness :
  let s := exec init [OpTransmit [x01] true] in
  let ops := [OpRun (Some Sample.good_frame); OpTransmit [x7e] true;
              OpReceive; OpStop] in
  get_statistics s = (1, 1, 0, 0, 0, 0) /\
  get_statistics (exec s ops) = (2, 1, 1, 1, 1, 0) /\
  counters_le s (exec s ops).
Proof.
  split; [vm_compute; reflexivity|]. split; [vm_compute; reflexivity|].
  apply (counters_never_decrease
           [OpRun (Some Sample.good_frame); OpTransmit [x7e] true;
            OpReceive; OpStop]).
  vm_compute. reflexivity.
Defined.

(** [X15] on the message [05]. *)
Lemma loopback_witness :
  written (snd (fst (transmit init [x05] true))) = [Sample.good_frame] /\
  snd (transmit init [x05] true) = Returned /\
  notified (snd (rx_bytes init Sample.good_frame)) = 1%nat /\
  fst (snd (receive (fst (rx_bytes init Sample.good_frame)))) = [x05] /\
  ([x05] <> [] ->
   snd (receive (fst (rx_bytes init Sample.good_frame))) = ([x05], 1)).
Proof.
  pose proof (loopback init init [x05] [x05; x05]) as H.
  evaluate H.
Defined.

(** [X16] on [7e 01] followed by [02 03]. *)
Lemma open_frame_is_buffered_witness :
  snd (rx_bytes init [x7e; x01; x02; x03]) = [] /\
  is_receiving (fst (rx_bytes init [x7e; x01; x02; x03])) = true /\
  receive_buffer (fst (rx_bytes init [x7e; x01; x02; x03]))
    = [x7e; x01; x02; x03].
Proof.
  pose proof (open_frame_is_buffered init [x01] [x02; x03]) as H.
  evaluate H.
Defined.

(** ** Calls of other threads inside a window, on concrete inputs *)



(** [X14] on the same events. *)
Lemma counters_within_totals_witness :
  let evs := [LoopByte x7e; LoopByte x05; LoopByte x05; LoopByte x7e;
              LoopDecode; CallClear; TransmitEnter [x05]; LoopByte x7e;
              LoopByte x01; CallReceive; TransmitLeave false; LoopByte x02;
              LoopByte x7e; LoopDecode] in
  let w :=
    mkWorld (mkSerial false [] [] false None None [x7e; x05; x05; x7e] []
               1 0 1 1 0 1) false None in
  run_events start evs = Some w /\
  counters_nonneg (object w) /\
  (quiet_clears start evs = true ->
   tx_good_frames (object w) <= tx_total_frames (object w) /\
   tx_bad_frames (object w) <= tx_total_frames (object w) /\
   rx_good_frames (object w) <= rx_total_frames (object w) /\
   rx_bad_frames (object w) <= rx_total_frames (object w)).
Proof.
  cbv zeta. split; [vm_compute; reflexivity|].
  pose proof (counters_within_totals
                [LoopByte x7e; LoopByte x05; LoopByte x05; LoopByte x7e;
                 LoopDecode; CallClear; TransmitEnter [x05]; LoopByte x7e;
                 LoopByte x01; CallReceive; TransmitLeave false;
                 LoopByte x02; LoopByte x7e; LoopDecode]
                (mkWorld (mkSerial false [] [] false None None
                            [x7e; x05; x05; x7e] [] 1 0 1 1 0 1)
                   false None)) as H.
  evaluate H.
Defined.
